(** * KeyTable: the open-addressing hash table of [hashtable.c]

    A shallow embedding of [hashtable.c] (string keys, pointer values,
    linear probing, growth by doubling, external iterator) and the proofs
    of its specification.

    Conventions of the embedding:
    - [size_t] and [u_int64_t] are 64-bit unsigned integers, modelled as
      [Z] with the wrap-around written [u64];
    - a [const char*] argument is a [string]: the bytes of the buffer it
      points to; reading stops at the first NUL byte or at the end of the
      [string], which stands for the terminator;
    - a [void*] value is a [Z], with [NULL = 0];
    - a key pointer that may be [NULL] is an [option string];
    - the slot array is a [list hashtable_entry] read with [!!] and written
      with [<[_:=_]>]; a read outside the array is the outcome [Fault];
    - [malloc], [calloc] and [strdup] draw their success from a script of
      booleans threaded through the calls (the type [heap]); [free] has no
      effect on the data and [hashtable_destroy], which only frees, is left
      out;
    - the [while] loops of the probes take a bound [fuel] on the number of
      slots they may inspect; exceeding it is the outcome [OutOfFuel]. *)

From Stdlib Require Import ZArith Lia String Ascii.
From stdpp Require Import base tactics option list.

Local Open Scope Z_scope.

(** ** Machine integers, strings and pointers *)

Definition u64 (z : Z) : Z := z mod 2 ^ 64.

Definition NULL : Z := 0.

(** [(unsigned char)c] *)
Definition uchar (c : ascii) : Z := Z.of_N (N_of_ascii c).

(** The bytes of a C string: everything before the first NUL. *)
Fixpoint c_str (p : string) : string :=
  match p with
  | EmptyString => EmptyString
  | String c p' => if uchar c =? 0 then EmptyString else String c (c_str p')
  end.

(** [strcmp] of the C library: the difference of the first bytes that
    differ (as [unsigned char]), [0] when both strings end together. *)
Fixpoint strcmp (a b : string) : Z :=
  match a, b with
  | EmptyString, EmptyString => 0
  | EmptyString, String d _ => 0 - uchar d
  | String c _, EmptyString => uchar c
  | String c a', String d b' =>
      if uchar c =? uchar d
      then (if uchar c =? 0 then 0 else strcmp a' b')
      else uchar c - uchar d
  end.

(** ** Outcomes and the allocation script *)

Inductive outcome (A : Type) : Type :=
| Done (a : A)   (* the call returned [a] *)
| Aborted          (* a failed [assert] called [abort] *)
| Fault          (* a read outside the slot array *)
| OutOfFuel.       (* a probe loop ran out of fuel *)
Arguments Done {A} a.
Arguments Aborted {A}.
Arguments Fault {A}.
Arguments OutOfFuel {A}.

Definition obind {A B} (c : outcome A) (k : A -> outcome B) : outcome B :=
  match c with
  | Done a => k a
  | Aborted => Aborted
  | Fault => Fault
  | OutOfFuel => OutOfFuel
  end.

(** The outcomes of the pending memory requests, oldest first; requests
    beyond the script succeed. *)
Definition heap : Type := list bool.

Definition M (A : Type) : Type := heap -> outcome (A * heap).

Definition ret {A} (a : A) : M A := fun h => Done (a, h).

Definition bind {A B} (c : M A) (k : A -> M B) : M B :=
  fun h => obind (c h) (fun r => k (fst r) (snd r)).

Definition lift {A} (c : outcome A) : M A :=
  fun h => obind c (fun a => Done (a, h)).

Notation "'let*' x := c 'in' k" := (bind c (fun x => k))
  (at level 10, x name, c at level 200, k at level 200).

(** One memory request: [true] when it is granted. *)
Definition alloc : M bool :=
  fun h => match h with
           | [] => Done (true, [])
           | b :: h' => Done (b, h')
           end.

(** [assert(cond)]: a no-op when the program is built with [NDEBUG]. *)
Definition assert_ (ndebug : bool) (cond : bool) : M unit :=
  fun h => if ndebug || cond then Done (tt, h) else Aborted.

(** ** The data of [hashtable.c] *)

Record hashtable_entry : Type := mk_entry {
  key : option string;   (* key is NULL if this slot is empty *)
  value : Z
}.

Record hashtable : Type := mk_table {
  entries : list hashtable_entry;  (* hash slots *)
  capacity : Z;                    (* size of the entries array *)
  length : Z                       (* number of items in hash table *)
}.

Record hashtablei : Type := mk_iter {
  it_key : option string;  (* current key *)
  it_value : Z;            (* current value *)
  _index : Z               (* current index into the entries; the table
                              itself is passed alongside the iterator *)
}.

Definition INITIAL_CAPACITY : Z := 1.

(** A slot of a [calloc]ed array. *)
Definition zero_entry : hashtable_entry := {| key := None; value := NULL |}.

Definition calloc (n : Z) : M (option (list hashtable_entry)) :=
  let* ok := alloc in
  ret (if ok : bool then Some (replicate (Z.to_nat n) zero_entry) else None).

Definition strdup (s : string) : M (option string) :=
  let* ok := alloc in
  ret (if ok : bool then Some (c_str s) else None).

(** [entries[index]] *)
Definition entry_at (entries : list hashtable_entry) (index : Z)
  : outcome hashtable_entry :=
  match entries !! Z.to_nat index with
  | Some e => Done e
  | None => Fault
  end.

(** ** [hashtable_create] *)

Definition hashtable_create : M (option hashtable) :=
  let* ok := alloc in
  if negb ok then ret None
  else
    let* p := calloc INITIAL_CAPACITY in
    match p with
    | None => ret None
    | Some es => ret (Some {| entries := es; capacity := INITIAL_CAPACITY;
                              length := 0 |})
    end.

(** ** [hash_key] *)

Definition FNV_OFFSET : Z := 14695981039346656037.
Definition FNV_PRIME : Z := 1099511628211.

(** The [for] loop of [hash_key], from the byte at [p] on. *)
Fixpoint hash_key_loop (hash : Z) (p : string) : Z :=
  match p with
  | EmptyString => hash
  | String c p' =>
      if uchar c =? 0 then hash
      else
        let hash := u64 (Z.lxor hash (uchar c)) in
        let hash := u64 (hash * FNV_PRIME) in
        hash_key_loop hash p'
  end.

Definition hash_key (key : string) : Z := hash_key_loop FNV_OFFSET key.

(** ** Linear probing *)

(** [index++; if (index >= capacity) index = 0;] *)
Definition next_index (capacity index : Z) : Z :=
  let index := u64 (index + 1) in
  if index >=? capacity then 0 else index.

(** The [while] loop of [hashtable_get]. *)
Fixpoint get_loop (fuel : nat) (entries : list hashtable_entry)
    (capacity : Z) (k : string) (index : Z) : outcome Z :=
  match fuel with
  | O => OutOfFuel
  | S fuel' =>
      obind (entry_at entries index) (fun e =>
        match key e with
        | None => Done NULL
        | Some k' =>
            if strcmp k k' =? 0 then Done (value e)
            else get_loop fuel' entries capacity k (next_index capacity index)
        end)
  end.

Definition hashtable_get (fuel : nat) (table : hashtable) (k : string)
  : outcome Z :=
  let hash := hash_key k in
  let index := Z.land hash (u64 (capacity table - 1)) in
  get_loop fuel (entries table) (capacity table) k index.

(** How the [while] loop of [hashtable_set_entry] ends: inside, on a slot
    that holds the key, or by its condition, on an empty slot. *)
Inductive probe_end : Type :=
| Hit (index : Z)
| Vacant (index : Z).

Fixpoint set_entry_loop (fuel : nat) (entries : list hashtable_entry)
    (capacity : Z) (k : string) (index : Z) : outcome probe_end :=
  match fuel with
  | O => OutOfFuel
  | S fuel' =>
      obind (entry_at entries index) (fun e =>
        match key e with
        | None => Done (Vacant index)
        | Some k' =>
            if strcmp k k' =? 0 then Done (Hit index)
            else set_entry_loop fuel' entries capacity k
                   (next_index capacity index)
        end)
  end.

(** [hashtable_set_entry] from its loop on; [plength] is [None] for a
    [NULL] pointer and the pointed-to length otherwise. The result is the
    returned key, the array and the length behind [plength]. *)
Definition set_entry_from (fuel : nat) (entries : list hashtable_entry)
    (capacity : Z) (k : string) (v : Z) (plength : option Z) (index : Z)
  : M (option string * list hashtable_entry * option Z) :=
  let* stop := lift (set_entry_loop fuel entries capacity k index) in
  match stop with
  | Hit index =>
      let* e := lift (entry_at entries index) in
      ret (key e,
           <[Z.to_nat index := {| key := key e; value := v |}]> entries,
           plength)
  | Vacant index =>
      match plength with
      | Some len =>
          let* dup := strdup k in
          match dup with
          | None => ret (None, entries, plength)
          | Some k' =>
              ret (Some k',
                   <[Z.to_nat index := {| key := Some k'; value := v |}]>
                     entries,
                   Some (u64 (len + 1)))
          end
      | None =>
          ret (Some k,
               <[Z.to_nat index := {| key := Some k; value := v |}]> entries,
               None)
      end
  end.

Definition hashtable_set_entry (fuel : nat) (entries : list hashtable_entry)
    (capacity : Z) (k : string) (v : Z) (plength : option Z)
  : M (option string * list hashtable_entry * option Z) :=
  let hash := hash_key k in
  let index := Z.land hash (u64 (capacity - 1)) in
  set_entry_from fuel entries capacity k v plength index.

(** ** [hashtable_expand] *)

(** The [for] loop of [hashtable_expand]: [n] iterations from slot [i]. *)
Fixpoint expand_loop (fuel : nat) (table : hashtable) (n : nat) (i : Z)
    (new_entries : list hashtable_entry) (new_capacity : Z)
  : M (list hashtable_entry) :=
  match n with
  | O => ret new_entries
  | S n' =>
      let* entry := lift (entry_at (entries table) i) in
      let* moved :=
        match key entry with
        | Some k =>
            let* r := hashtable_set_entry fuel new_entries new_capacity k
                        (value entry) None in
            ret (snd (fst r))
        | None => ret new_entries
        end in
      expand_loop fuel table n' (u64 (i + 1)) moved new_capacity
  end.

Definition hashtable_expand (fuel : nat) (table : hashtable)
  : M (bool * hashtable) :=
  let new_capacity := u64 (capacity table * 2) in
  if new_capacity <? capacity table then
    ret (false, table)  (* overflow (capacity would be too big) *)
  else
    let* p := calloc new_capacity in
    match p with
    | None => ret (false, table)
    | Some new_entries =>
        let* new_entries :=
          expand_loop fuel table (Z.to_nat (capacity table)) 0
            new_entries new_capacity in
        ret (true, {| entries := new_entries; capacity := new_capacity;
                      length := length table |})
    end.

(** ** [hashtable_set], [hashtable_length] *)

(** The last statement of [hashtable_set]. *)
Definition set_tail (fuel : nat) (table : hashtable) (k : string) (v : Z)
  : M (option string * hashtable) :=
  let* r := hashtable_set_entry fuel (entries table) (capacity table) k v
              (Some (length table)) in
  ret (fst (fst r),
       {| entries := snd (fst r); capacity := capacity table;
          length := default (length table) (snd r) |}).

Definition hashtable_set (ndebug : bool) (fuel : nat) (table : hashtable)
    (k : string) (v : Z) : M (option string * hashtable) :=
  let* _ := assert_ ndebug (negb (v =? NULL)) in
  if v =? NULL then ret (None, table)
  else if length table >=? capacity table / 2 then
    let* r := hashtable_expand fuel table in
    if negb (fst r) then ret (None, snd r)
    else set_tail fuel (snd r) k v
  else set_tail fuel table k v.

Definition hashtable_length (table : hashtable) : Z := length table.

(** ** The iterator *)

(** The C code leaves the [key] and [value] fields of a new iterator
    uninitialised; they are [NULL] here. *)
Definition hashtable_iterator (table : hashtable) : hashtablei :=
  {| it_key := None; it_value := NULL; _index := 0 |}.

(** The [while] loop of [hashtable_next]; [n] bounds the slots left. *)
Fixpoint next_loop (n : nat) (table : hashtable) (it : hashtablei)
  : outcome (bool * hashtablei) :=
  if _index it <? capacity table then
    match n with
    | O => OutOfFuel
    | S n' =>
        let i := _index it in
        let it := {| it_key := it_key it; it_value := it_value it;
                     _index := u64 (_index it + 1) |} in
        obind (entry_at (entries table) i) (fun entry =>
          match key entry with
          | Some k =>
              Done (true, {| it_key := key entry; it_value := value entry;
                             _index := _index it |})
          | None => next_loop n' table it
          end)
    end
  else Done (false, it).

Definition hashtable_next (table : hashtable) (it : hashtablei)
  : outcome (bool * hashtablei) :=
  next_loop (Z.to_nat (capacity table - _index it)) table it.

(** ** Specification-side definitions *)

(** Two buffers hold the same C string. *)
Definition same_key (a b : string) : Prop := c_str a = c_str b.

(** The slot a probe for [k] starts from. *)
Definition home (capacity : Z) (k : string) : Z :=
  Z.land (hash_key k) (u64 (capacity - 1)).

(** [key != NULL] *)
Definition is_Some_b {A} (o : option A) : bool :=
  match o with Some _ => true | None => false end.

(** The slot a probe ended on. *)
Definition end_index (r : probe_end) : Z :=
  match r with Hit j => j | Vacant j => j end.

(** Number of occupied slots. *)
Fixpoint occupied (es : list hashtable_entry) : nat :=
  match es with
  | [] => O
  | e :: es' => (if is_Some_b (key e) then 1 else 0) + occupied es'
  end.

(** The array has [capacity] slots and [capacity] fits a [size_t]. *)
Definition array_ok (es : list hashtable_entry) (capacity : Z) : Prop :=
  Z.of_nat (Datatypes.length es) = capacity /\ 1 <= capacity < 2 ^ 64.

(** Every stored key is found, at its own slot, by the probe for it. *)
Definition chain_ok (es : list hashtable_entry) (capacity : Z) : Prop :=
  forall (j : nat) e k,
    es !! j = Some e -> key e = Some k ->
    set_entry_loop (Datatypes.length es) es capacity k (home capacity k)
    = Done (Hit (Z.of_nat j)).

(** Some slot binds the C string of [k] to [v]. *)
Definition holds (es : list hashtable_entry) (k : string) (v : Z) : Prop :=
  exists (j : nat) e k',
    es !! j = Some e /\ key e = Some k' /\ same_key k k' /\ value e = v.

(** The representation invariant of a table. *)
Record wf (t : hashtable) : Prop := mk_wf {
  wf_array : array_ok (entries t) (capacity t);
  wf_pow2 : exists n : nat, capacity t = 2 ^ Z.of_nat n;
  wf_count : length t = Z.of_nat (occupied (entries t));
  wf_load : length t <= capacity t / 2;
  wf_chain : chain_ok (entries t) (capacity t)
}.

(** What a returning [hashtable_set t k v] with [v] not [NULL] leaves:
    [r] is the returned key, [t'] the table after the call. *)
Definition set_post (t : hashtable) (k : string) (v : Z)
    (r : option string) (t' : hashtable) : Prop :=
  wf t'
  /\ (capacity t' = capacity t \/ capacity t' = 2 * capacity t)
  /\ match r with
     | None =>
         length t' = length t
         /\ (forall k2 v2,
               holds (entries t') k2 v2 <-> holds (entries t) k2 v2)
         /\ (capacity t' = capacity t -> t' = t)
     | Some kk =>
         same_key k kk /\ holds (entries t') k v
         /\ ((exists v0, holds (entries t) k v0) -> length t' = length t)
         /\ ((forall v0, ~ holds (entries t) k v0) ->
             length t' = length t + 1)
     end.

(** The tables a program can hold: made by [hashtable_create] and passed
    through any calls of [hashtable_set] that returned. *)
Inductive reachable : hashtable -> Prop :=
| reach_create h t h' :
    hashtable_create h = Done (Some t, h') -> reachable t
| reach_set ndebug fuel t k v h r t' h' :
    reachable t ->
    hashtable_set ndebug fuel t k v h = Done (r, t', h') ->
    reachable t'.

(** Successive successful growths. *)
Inductive grown : hashtable -> hashtable -> Prop :=
| grown_refl t : grown t t
| grown_step fuel t h t1 h1 t2 :
    hashtable_expand fuel t h = Done ((true, t1), h1) ->
    grown t1 t2 -> grown t t2.

(** The occupied slots in slot order, as an iterator shows them. *)
Fixpoint pairs (es : list hashtable_entry) : list (option string * Z) :=
  match es with
  | [] => []
  | e :: es' =>
      match key e with
      | Some _ => (key e, value e) :: pairs es'
      | None => pairs es'
      end
  end.

(** The loop of a caller, [while (hashtable_next(&it)) ...], collecting the
    items shown; [n] bounds the calls of [hashtable_next]. *)
Fixpoint drain (n : nat) (table : hashtable) (it : hashtablei)
  : outcome (list (option string * Z) * hashtablei) :=
  match n with
  | O => OutOfFuel
  | S n' =>
      obind (hashtable_next table it) (fun r =>
        if fst r then
          obind (drain n' table (snd r)) (fun rest =>
            Done ((it_key (snd r), it_value (snd r)) :: fst rest, snd rest))
        else Done ([], snd r))
  end.

(** The bytes of a key before its terminator. *)
Fixpoint raw_bytes (p : string) : list Z :=
  match p with
  | EmptyString => []
  | String c p' => if uchar c =? 0 then [] else uchar c :: raw_bytes p'
  end.

(** FNV-1a as the specification words it: start from the offset; for each
    byte, XOR it into the accumulator, then multiply by the prime, modulo
    [2 ^ 64]. *)
Definition fnv1a_64 (bytes : list Z) : Z :=
  fold_left (fun acc b => (Z.lxor acc b * FNV_PRIME) mod 2 ^ 64) bytes
    FNV_OFFSET.

(** Sample tables: a new table, the same after [set "a" 7], after a further
    growth, and after a growth whose insertion failed. *)
Definition fresh_table : hashtable :=
  {| entries := [zero_entry]; capacity := 1; length := 0 |}.

Definition table_a : hashtable :=
  {| entries := [{| key := Some "a"%string; value := 7 |}; zero_entry];
     capacity := 2; length := 1 |}.

Definition table_a4 : hashtable :=
  {| entries := [{| key := Some "a"%string; value := 7 |}; zero_entry;
                 zero_entry; zero_entry];
     capacity := 4; length := 1 |}.


Definition table_a9 : hashtable :=
  {| entries := [{| key := Some "a"%string; value := 9 |}; zero_entry;
                 zero_entry; zero_entry];
     capacity := 4; length := 1 |}.

Definition table_empty2 : hashtable :=
  {| entries := [zero_entry; zero_entry]; capacity := 2; length := 0 |}.

(** The table after [set "a" 7], [set "b" 9], [set "c" 11]. *)
Definition table_abc : hashtable :=
  {| entries := [zero_entry; zero_entry;
                 {| key := Some "c"%string; value := 11 |}; zero_entry;
                 {| key := Some "a"%string; value := 7 |};
                 {| key := Some "b"%string; value := 9 |};
                 zero_entry; zero_entry];
     capacity := 8; length := 3 |}.

(** A table record at the largest power-of-two capacity (its array left
    out: no memory holds it). *)
Definition table_huge : hashtable :=
  {| entries := []; capacity := 2 ^ 63; length := 2 ^ 62 |}.

(** ** [hashtable_destroy] *)

(** What [hashtable_destroy] hands to [free], in order: the key pointer of
    a slot ([NULL] for an empty one, on which [free] does nothing), the
    slot array, the table. *)
Inductive freed : Type :=
| FreeKey (p : option string)
| FreeEntries
| FreeTable.

(** The [for] loop of [hashtable_destroy]: [n] iterations from slot [i]. *)
Fixpoint destroy_loop (table : hashtable) (n : nat) (i : Z)
  : outcome (list freed) :=
  match n with
  | O => Done []
  | S n' =>
      obind (entry_at (entries table) i) (fun e =>
        obind (destroy_loop table n' (u64 (i + 1))) (fun rest =>
          Done (FreeKey (key e) :: rest)))
  end.

Definition hashtable_destroy (table : hashtable) : outcome (list freed) :=
  obind (destroy_loop table (Z.to_nat (capacity table)) 0) (fun keys =>
    Done (keys ++ [FreeEntries; FreeTable])).

(** ** Histories of calls *)

(** An occupied slot of a table a program can hold: its key is a copy made
    by [strdup], hence without a NUL inside, and its value is not [NULL]. *)
Definition slot_ok (e : hashtable_entry) : Prop :=
  match key e with
  | Some k => c_str k = k /\ value e <> NULL
  | None => True
  end.

(** The calls of [hashtable_set] made on a table since [t0], the latest
    first, each with the key and value it stored; calls that returned
    [NULL] leave no trace. *)
Inductive sets_from (t0 : hashtable)
  : list (string * Z) -> hashtable -> Prop :=
| sets_none : sets_from t0 [] t0
| sets_stored ndebug fuel kvs t k v h kk t' h' :
    sets_from t0 kvs t ->
    hashtable_set ndebug fuel t k v h = Done ((Some kk, t'), h') ->
    sets_from t0 ((k, v) :: kvs) t'
| sets_failed ndebug fuel kvs t k v h t' h' :
    sets_from t0 kvs t ->
    hashtable_set ndebug fuel t k v h = Done ((None, t'), h') ->
    sets_from t0 kvs t'.

(** The value of the latest call that stored the C string of [k], [NULL]
    when there is none. *)
Fixpoint last_set (kvs : list (string * Z)) (k : string) : Z :=
  match kvs with
  | [] => NULL
  | kv :: kvs' =>
      if String.eqb (c_str k) (c_str (fst kv)) then snd kv
      else last_set kvs' k
  end.

(** The number of different C strings among the keys of a history. *)
Fixpoint distinct_keys (kvs : list (string * Z)) : nat :=
  match kvs with
  | [] => O
  | kv :: kvs' =>
      (if existsb (fun kv' => String.eqb (c_str (fst kv)) (c_str (fst kv')))
            kvs'
       then 0 else 1) + distinct_keys kvs'
  end.

(** The non-[NULL] keys among the pointers freed. *)
Fixpoint freed_keys (tr : list freed) : list string :=
  match tr with
  | FreeKey (Some k) :: tr' => k :: freed_keys tr'
  | _ :: tr' => freed_keys tr'
  | [] => []
  end.

(** ** The field tags of [main.c] *)

(** What [main] keeps from one field to the next: the table of the field
    names seen, the counter of tags, and the [int] cells it got from
    [malloc]. A pointer to the [n]-th cell made is the number [n], so that
    no such pointer is [NULL] and two cells never share one. *)
Record registry : Type := mk_registry {
  key_hashtable : hashtable;
  counter : Z;
  cells : list Z
}.

(** [(int)z] for a [size_t] [z], on 32-bit two's complement. *)
Definition to_int (z : Z) : Z := (z + 2 ^ 31) mod 2 ^ 32 - 2 ^ 31.

(** [*(int* )p]: outside the cells made, a fault. *)
Definition read_int (cells : list Z) (p : Z) : outcome Z :=
  if p <=? 0 then Fault
  else match cells !! Z.to_nat (p - 1) with
       | Some n => Done n
       | None => Fault
       end.

(** The body of the loop of [main] over the fields of a record, from the
    lookup of the field name to the tag handed to [tlv_box_put_int],
    [tlv_box_put_short] or [tlv_box_put_string]. The result of [malloc] is
    not checked: when it is [NULL] the store through it is a fault. The
    result of [hashtable_set] is not looked at. *)
Definition field_tag (ndebug : bool) (fuel : nat) (s : registry)
    (k : string) : M (Z * registry) :=
  let* value := lift (hashtable_get fuel (key_hashtable s) k) in
  if value =? NULL then
    let* ok := alloc in
    if negb ok then lift Fault
    else
      let new_num := Z.of_nat (Datatypes.length (cells s)) + 1 in
      let cells' := cells s ++ [to_int (counter s)] in
      let* r := hashtable_set ndebug fuel (key_hashtable s) k new_num in
      let value := new_num in
      let counter' := u64 (counter s + 1) in
      let* tag := lift (read_int cells' value) in
      ret (tag, {| key_hashtable := snd r; counter := counter';
                   cells := cells' |})
  else
    let* tag := lift (read_int (cells s) value) in
    ret (tag, s).

(** The states [main] goes through: [counter = 1] on a new table, then
    one [field_tag] after the other. *)
Inductive tagged : registry -> Prop :=
| tagged_start h t h' :
    hashtable_create h = Done (Some t, h') ->
    tagged {| key_hashtable := t; counter := 1; cells := [] |}
| tagged_field ndebug fuel s k h n s' h' :
    tagged s ->
    field_tag ndebug fuel s k h = Done ((n, s'), h') ->
    tagged s'.

(** What [tagged] states keep. *)
Record registry_ok (s : registry) : Prop := mk_registry_ok {
  reg_table : reachable (key_hashtable s);
  reg_counter : counter s = u64 (Z.of_nat (Datatypes.length (cells s)) + 1);
  reg_cells : forall (i : nat) n,
      cells s !! i = Some n -> n = to_int (u64 (Z.of_nat i + 1));
  reg_valid : forall k p,
      holds (entries (key_hashtable s)) k p ->
      1 <= p <= Z.of_nat (Datatypes.length (cells s));
  reg_inj : forall k1 k2 p,
      holds (entries (key_hashtable s)) k1 p ->
      holds (entries (key_hashtable s)) k2 p -> same_key k1 k2
}.

(** Any number of further fields. *)
Inductive tag_steps : registry -> registry -> Prop :=
| tag_steps_refl s : tag_steps s s
| tag_steps_field ndebug fuel s k h n s1 h1 s2 :
    field_tag ndebug fuel s k h = Done ((n, s1), h1) ->
    tag_steps s1 s2 -> tag_steps s s2.

(** The registry at the start and after the field ["a"]. *)
Definition registry_0 : registry :=
  {| key_hashtable := fresh_table; counter := 1; cells := [] |}.

Definition registry_a : registry :=
  {| key_hashtable :=
       {| entries := [{| key := Some "a"%string; value := 1 |}; zero_entry];
          capacity := 2; length := 1 |};
     counter := 2; cells := [1] |}.

(** The registry after the fields ["a"] then ["b"]. *)
Definition registry_ab : registry :=
  {| key_hashtable :=
       {| entries := [{| key := Some "a"%string; value := 1 |};
                      {| key := Some "b"%string; value := 2 |};
                      zero_entry; zero_entry];
          capacity := 4; length := 2 |};
     counter := 3; cells := [1; 2] |}.

(** * Proofs *)

(** ** C strings *)

Lemma uchar_range c : 0 <= uchar c < 256.
Proof.
  unfold uchar. pose proof (N_ascii_bounded c) as Hb. lia.
Qed.

Lemma uchar_inj c d : uchar c = uchar d -> c = d.
Proof.
  unfold uchar. intros H. apply N2Z.inj in H.
  rewrite <- (ascii_N_embedding c), <- (ascii_N_embedding d). by rewrite H.
Qed.

Lemma strcmp_same_key a b : strcmp a b = 0 <-> same_key a b.
Proof.
  unfold same_key. revert b.
  induction a as [|c a IH]; intros [|d b]; simpl.
  - done.
  - pose proof (uchar_range d). destruct (Z.eqb_spec (uchar d) 0); split; (done || lia).
  - pose proof (uchar_range c). destruct (Z.eqb_spec (uchar c) 0); split; (done || lia).
  - destruct (Z.eqb_spec (uchar c) (uchar d)) as [Hcd|Hcd].
    + apply uchar_inj in Hcd as ->.
      destruct (Z.eqb_spec (uchar d) 0); [done|].
      rewrite IH. split; [by intros -> | by intros [=]].
    + split; [lia|].
      destruct (Z.eqb_spec (uchar c) 0), (Z.eqb_spec (uchar d) 0);
        try done; try lia.
      intros [= -> _]. done.
Qed.

Lemma same_key_refl a : same_key a a.
Proof. done. Qed.

Lemma same_key_sym a b : same_key a b -> same_key b a.
Proof. unfold same_key. done. Qed.

Lemma same_key_trans a b c : same_key a b -> same_key b c -> same_key a c.
Proof. unfold same_key. congruence. Qed.

Lemma c_str_idem a : c_str (c_str a) = c_str a.
Proof.
  induction a as [|c a IH]; simpl; [done|].
  destruct (Z.eqb_spec (uchar c) 0) as [|Hc]; simpl; [done|].
  destruct (Z.eqb_spec (uchar c) 0); [done|]. by rewrite IH.
Qed.

Lemma same_key_c_str a : same_key a (c_str a).
Proof. unfold same_key. by rewrite c_str_idem. Qed.

Lemma strcmp_congr a b x : same_key a b -> (strcmp a x =? 0) = (strcmp b x =? 0).
Proof.
  intros Hab.
  destruct (Z.eqb_spec (strcmp a x) 0) as [Ha|Ha], (Z.eqb_spec (strcmp b x) 0) as [Hb|Hb];
    try done.
  - exfalso. apply Hb. apply strcmp_same_key. apply strcmp_same_key in Ha.
    eapply same_key_trans; [by apply same_key_sym|done].
  - exfalso. apply Ha. apply strcmp_same_key. apply strcmp_same_key in Hb.
    eapply same_key_trans; done.
Qed.

Lemma hash_key_loop_c_str h a : hash_key_loop h (c_str a) = hash_key_loop h a.
Proof.
  revert h. induction a as [|c a IH]; intros h; simpl; [done|].
  destruct (Z.eqb_spec (uchar c) 0) as [|Hc]; simpl; [done|].
  destruct (Z.eqb_spec (uchar c) 0); [done|]. apply IH.
Qed.

Lemma hash_key_congr a b : same_key a b -> hash_key a = hash_key b.
Proof.
  unfold same_key, hash_key. intros H.
  by rewrite <- (hash_key_loop_c_str _ a), H, hash_key_loop_c_str.
Qed.

Lemma home_congr c a b : same_key a b -> home c a = home c b.
Proof. unfold home. by intros ->%hash_key_congr. Qed.

(** ** The probe loop *)

Lemma loop_S f es c k i :
  set_entry_loop (S f) es c k i =
  match es !! Z.to_nat i with
  | None => Fault
  | Some e =>
      match key e with
      | None => Done (Vacant i)
      | Some k' =>
          if strcmp k k' =? 0 then Done (Hit i)
          else set_entry_loop f es c k (next_index c i)
      end
  end.
Proof. simpl. unfold entry_at. by destruct (es !! Z.to_nat i). Qed.

Lemma get_loop_probe f es c k i :
  get_loop f es c k i =
  obind (set_entry_loop f es c k i) (fun r =>
    match r with
    | Hit j => obind (entry_at es j) (fun e => Done (value e))
    | Vacant _ => Done NULL
    end).
Proof.
  revert i. induction f as [|f IH]; intros i; [done|].
  rewrite loop_S. simpl. unfold entry_at at 1.
  destruct (es !! Z.to_nat i) as [e|] eqn:He; simpl; [|done].
  destruct (key e) as [k'|]; [|done].
  destruct (strcmp k k' =? 0); [|apply IH].
  simpl. unfold entry_at. by rewrite He.
Qed.

Lemma loop_mono f f' es c k i r :
  set_entry_loop f es c k i = Done r -> (f <= f')%nat ->
  set_entry_loop f' es c k i = Done r.
Proof.
  revert f' i. induction f as [|f IH]; intros f' i H Hle; [done|].
  destruct f' as [|f']; [lia|]. rewrite loop_S in H |- *.
  destruct (es !! Z.to_nat i) as [e|]; [|done].
  destruct (key e) as [k'|]; [|done].
  destruct (strcmp k k' =? 0); [done|]. apply IH; [done|lia].
Qed.

Lemma loop_fuel_irrelevant f f' es c k i r r' :
  set_entry_loop f es c k i = Done r ->
  set_entry_loop f' es c k i = Done r' -> r = r'.
Proof.
  intros H H'.
  apply (loop_mono _ (Nat.max f f')) in H; [|lia].
  apply (loop_mono _ (Nat.max f f')) in H'; [|lia].
  congruence.
Qed.

Lemma loop_Hit f es c k i j :
  set_entry_loop f es c k i = Done (Hit j) ->
  exists e k', es !! Z.to_nat j = Some e /\ key e = Some k' /\ same_key k k'.
Proof.
  revert i. induction f as [|f IH]; intros i H; [done|].
  rewrite loop_S in H.
  destruct (es !! Z.to_nat i) as [e|] eqn:He; [|done].
  destruct (key e) as [k'|] eqn:Hk; [|done].
  destruct (Z.eqb_spec (strcmp k k') 0) as [Hs|]; [|by eapply IH].
  injection H as ->. exists e, k'. by rewrite <- strcmp_same_key.
Qed.

Lemma loop_Vacant f es c k i j :
  set_entry_loop f es c k i = Done (Vacant j) ->
  exists e, es !! Z.to_nat j = Some e /\ key e = None.
Proof.
  revert i. induction f as [|f IH]; intros i H; [done|].
  rewrite loop_S in H.
  destruct (es !! Z.to_nat i) as [e|] eqn:He; [|done].
  destruct (key e) as [k'|] eqn:Hk.
  - destruct (strcmp k k' =? 0); [done|by eapply IH].
  - injection H as ->. by exists e.
Qed.

Lemma u64_small z : 0 <= z < 2 ^ 64 -> u64 z = z.
Proof. intros. unfold u64. by apply Z.mod_small. Qed.

Lemma u64_range z : 0 <= u64 z < 2 ^ 64.
Proof. unfold u64. apply Z.mod_pos_bound. lia. Qed.

Lemma next_index_range c i : 1 <= c -> 0 <= next_index c i < c.
Proof.
  intros Hc. unfold next_index. pose proof (u64_range (i + 1)).
  destruct (Z.geb_spec (u64 (i + 1)) c); lia.
Qed.

Lemma next_index_eq c i :
  0 <= i < c -> c < 2 ^ 64 ->
  next_index c i = if i + 1 <? c then i + 1 else 0.
Proof.
  intros Hi Hc. unfold next_index. rewrite u64_small by lia.
  destruct (Z.geb_spec (i + 1) c), (Z.ltb_spec (i + 1) c); lia.
Qed.

Lemma loop_range f es c k i r :
  1 <= c -> 0 <= i < c ->
  set_entry_loop f es c k i = Done r -> 0 <= end_index r < c.
Proof.
  intros Hc. revert i. induction f as [|f IH]; intros i Hi H; [done|].
  rewrite loop_S in H.
  destruct (es !! Z.to_nat i) as [e|]; [|done].
  destruct (key e) as [k'|].
  - destruct (strcmp k k' =? 0).
    + by injection H as <-.
    + eapply IH; [|done]. by apply next_index_range.
  - by injection H as <-.
Qed.

Lemma loop_congr f es c k k' i :
  same_key k k' -> set_entry_loop f es c k i = set_entry_loop f es c k' i.
Proof.
  intros Hk. revert i. induction f as [|f IH]; intros i; [done|].
  rewrite !loop_S.
  destruct (es !! Z.to_nat i) as [e|]; [|done].
  destruct (key e) as [k2|]; [|done].
  rewrite (strcmp_congr k k' k2 Hk). by rewrite IH.
Qed.

Lemma loop_keys f es es' c k i :
  key <$> es = key <$> es' ->
  set_entry_loop f es c k i = set_entry_loop f es' c k i.
Proof.
  intros Hk. revert i. induction f as [|f IH]; intros i; [done|].
  rewrite !loop_S.
  assert (key <$> es !! Z.to_nat i = key <$> es' !! Z.to_nat i) as Hi
    by (by rewrite <- !list_lookup_fmap, Hk).
  destruct (es !! Z.to_nat i) as [e|], (es' !! Z.to_nat i) as [e'|];
    simpl in Hi; try done.
  injection Hi as ->. destruct (key e'); [|done].
  by rewrite IH.
Qed.

Lemma loop_insert_other f es c k i (j : nat) e0 e' r :
  1 <= c -> 0 <= i < c ->
  es !! j = Some e0 -> key e0 = None ->
  set_entry_loop f es c k i = Done r -> r <> Vacant (Z.of_nat j) ->
  set_entry_loop f (<[j := e']> es) c k i = Done r.
Proof.
  intros Hc Hi Hj H0. revert i Hi.
  induction f as [|f IH]; intros i Hi H Hr; [done|].
  rewrite loop_S in H |- *.
  destruct (decide (Z.to_nat i = j)) as [<-|Hne].
  - rewrite Hj, H0 in H. injection H as <-.
    exfalso. apply Hr. f_equal. lia.
  - rewrite list_lookup_insert_ne by done.
    destruct (es !! Z.to_nat i) as [e|]; [|done].
    destruct (key e) as [k'|]; [|done].
    destruct (strcmp k k' =? 0); [done|].
    apply IH; [by apply next_index_range|done..].
Qed.

Lemma loop_insert_here f es c k i j k' v :
  0 <= i ->
  set_entry_loop f es c k i = Done (Vacant j) -> same_key k k' ->
  set_entry_loop f (<[Z.to_nat j := {| key := Some k'; value := v |}]> es)
    c k i = Done (Hit j).
Proof.
  intros Hi H Hk. revert i Hi H.
  induction f as [|f IH]; intros i Hi H; [done|].
  rewrite loop_S in H |- *.
  destruct (es !! Z.to_nat i) as [e|] eqn:He; [|done].
  destruct (key e) as [k2|] eqn:Hk2.
  - destruct (strcmp k k2 =? 0) eqn:Hs; [done|].
    destruct (loop_Vacant _ _ _ _ _ _ H) as (e0 & He0 & Hk0).
    rewrite list_lookup_insert_ne by congruence.
    rewrite He, Hk2, Hs. apply IH; [|done].
    unfold next_index. pose proof (u64_range (i + 1)).
    destruct (u64 (i + 1) >=? c); lia.
  - injection H as <-.
    rewrite list_lookup_insert_eq by (by eapply lookup_lt_Some).
    simpl. apply strcmp_same_key in Hk. by rewrite Hk.
Qed.

(** Occupied slots and the empty slot a probe needs. *)

Lemma occupied_le es : (occupied es <= Datatypes.length es)%nat.
Proof.
  induction es as [|e es IH]; simpl; [lia|]. destruct (is_Some_b (key e)); lia.
Qed.

Lemma occupied_lt_empty es :
  (occupied es < Datatypes.length es)%nat ->
  exists (j : nat) e, es !! j = Some e /\ key e = None.
Proof.
  induction es as [|e es IH]; simpl; [lia|]. intros H.
  destruct (key e) as [k|] eqn:Hk; simpl in H.
  - destruct IH as (j & e' & Hj & He'); [lia|]. by exists (S j), e'.
  - by exists O, e.
Qed.

Lemma occupied_insert es (j : nat) e e' :
  es !! j = Some e ->
  (occupied (<[j := e']> es) + (if is_Some_b (key e) then 1 else 0)
   = occupied es + (if is_Some_b (key e') then 1 else 0))%nat.
Proof.
  revert j. induction es as [|e0 es IH]; intros [|j] H; simpl in *; try done.
  - injection H as ->. lia.
  - specialize (IH _ H). lia.
Qed.

Lemma occupied_replicate n : occupied (replicate n zero_entry) = O.
Proof. induction n as [|n IH]; simpl; [done|]. by rewrite IH. Qed.

Lemma occupied_app es es' : occupied (es ++ es') = (occupied es + occupied es')%nat.
Proof. induction es as [|e es IH]; simpl; [done|]. rewrite IH. lia. Qed.

Lemma loop_terminates_from es c k (j : nat) e0 :
  array_ok es c -> es !! j = Some e0 -> key e0 = None ->
  forall (d : nat) i f,
    0 <= i < c -> (d < f)%nat ->
    Z.of_nat d = (if i <=? Z.of_nat j then Z.of_nat j - i
                  else Z.of_nat j - i + c) ->
    exists r, set_entry_loop f es c k i = Done r.
Proof.
  intros [Hlen Hc] Hj H0.
  pose proof (lookup_lt_Some _ _ _ Hj) as Hjlt.
  induction d as [|d IH]; intros i f Hi Hf Hd;
    (destruct f as [|f]; [lia|]); rewrite loop_S.
  - assert (Z.to_nat i = j) as -> by (destruct (Z.leb_spec i (Z.of_nat j)); lia).
    rewrite Hj, H0. eauto.
  - destruct (lookup_lt_is_Some_2 es (Z.to_nat i)) as [e He]; [lia|].
    rewrite He. destruct (key e) as [k'|]; [|eauto].
    destruct (strcmp k k' =? 0); [eauto|].
    apply IH; [by apply next_index_range; lia|lia|].
    rewrite next_index_eq by lia.
    destruct (Z.ltb_spec (i + 1) c), (Z.leb_spec i (Z.of_nat j));
      destruct (Z.leb_spec (i + 1) (Z.of_nat j)); try lia;
      destruct (Z.leb_spec 0 (Z.of_nat j)); lia.
Qed.

Lemma loop_terminates f es c k i :
  array_ok es c -> (occupied es < Datatypes.length es)%nat ->
  0 <= i < c -> (Datatypes.length es <= f)%nat ->
  exists r, set_entry_loop f es c k i = Done r.
Proof.
  intros Ha Hocc Hi Hf.
  destruct (occupied_lt_empty _ Hocc) as (j & e0 & Hj & H0).
  pose proof (lookup_lt_Some _ _ _ Hj) as Hjlt. destruct Ha as [Hlen Hc].
  eapply (loop_terminates_from es c k j e0 (conj Hlen Hc) Hj H0
            (Z.to_nat (if i <=? Z.of_nat j then Z.of_nat j - i
                       else Z.of_nat j - i + c))); [done| |].
  - destruct (Z.leb_spec i (Z.of_nat j)); lia.
  - destruct (Z.leb_spec i (Z.of_nat j)); lia.
Qed.

Lemma loop_terminates_empty f es c k i (j : nat) e0 :
  array_ok es c -> es !! j = Some e0 -> key e0 = None ->
  0 <= i < c -> (Datatypes.length es <= f)%nat ->
  exists r, set_entry_loop f es c k i = Done r.
Proof.
  intros Ha Hj H0 Hi Hf.
  pose proof (lookup_lt_Some _ _ _ Hj) as Hjlt. destruct Ha as [Hlen Hc].
  eapply (loop_terminates_from es c k j e0 (conj Hlen Hc) Hj H0
            (Z.to_nat (if i <=? Z.of_nat j then Z.of_nat j - i
                       else Z.of_nat j - i + c))); [done| |];
    destruct (Z.leb_spec i (Z.of_nat j)); lia.
Qed.

(** ** The starting slot *)

Lemma Zland_le_r a b : 0 <= a -> 0 <= b -> Z.land a b <= b.
Proof.
  intros Ha Hb.
  rewrite <- (Z2N.id a Ha), <- (Z2N.id b Hb) at 1.
  rewrite <- N2Z.inj_land. rewrite <- (Z2N.id b Hb) at 2.
  apply N2Z.inj_le, N.land_le_r.
Qed.

Lemma hash_key_loop_range h p :
  0 <= h < 2 ^ 64 -> 0 <= hash_key_loop h p < 2 ^ 64.
Proof.
  revert h. induction p as [|c p IH]; intros h Hh; simpl; [done|].
  destruct (uchar c =? 0); [done|]. apply IH, u64_range.
Qed.

Lemma hash_key_range k : 0 <= hash_key k < 2 ^ 64.
Proof. apply hash_key_loop_range. unfold FNV_OFFSET. lia. Qed.

Lemma home_range c k : 1 <= c < 2 ^ 64 -> 0 <= home c k < c.
Proof.
  intros Hc. unfold home. rewrite u64_small by lia.
  pose proof (hash_key_range k) as Hh.
  pose proof (Zland_le_r (hash_key k) (c - 1)).
  pose proof (proj2 (Z.land_nonneg (hash_key k) (c - 1))).
  lia.
Qed.

(** ** The chain invariant and the contents of the array *)

Lemma holds_congr es k k' v : same_key k k' -> holds es k v -> holds es k' v.
Proof.
  intros Hk (j & e & k2 & Hj & Hk2 & Hs & Hv).
  exists j, e, k2. repeat split; try done.
  eapply same_key_trans; [by apply same_key_sym|done].
Qed.

Lemma chain_hit es c k v :
  chain_ok es c -> holds es k v ->
  exists (j : nat) e,
    set_entry_loop (Datatypes.length es) es c k (home c k)
    = Done (Hit (Z.of_nat j))
    /\ es !! j = Some e /\ value e = v.
Proof.
  intros Hch (j & e & k' & Hj & Hk' & Hs & Hv).
  exists j, e. split; [|done].
  rewrite (loop_congr _ _ _ k k' _ Hs), (home_congr _ k k' Hs).
  by eapply Hch.
Qed.

Lemma chain_distinct es c (j1 j2 : nat) e1 e2 k1 k2 :
  chain_ok es c ->
  es !! j1 = Some e1 -> key e1 = Some k1 ->
  es !! j2 = Some e2 -> key e2 = Some k2 ->
  same_key k1 k2 -> j1 = j2.
Proof.
  intros Hch H1 Hk1 H2 Hk2 Hs.
  pose proof (Hch _ _ _ H1 Hk1) as L1. pose proof (Hch _ _ _ H2 Hk2) as L2.
  rewrite (loop_congr _ _ _ k1 k2 _ Hs), (home_congr _ k1 k2 Hs) in L1.
  rewrite L1 in L2. injection L2. lia.
Qed.

Lemma holds_functional es c k v v' :
  chain_ok es c -> holds es k v -> holds es k v' -> v = v'.
Proof.
  intros Hch H H'.
  destruct (chain_hit _ _ _ _ Hch H) as (j & e & L & Hj & <-).
  destruct (chain_hit _ _ _ _ Hch H') as (j' & e' & L' & Hj' & <-).
  rewrite L in L'. injection L' as Hjj. apply Nat2Z.inj in Hjj as <-.
  congruence.
Qed.

Lemma hit_holds f es c k i j :
  set_entry_loop f es c k i = Done (Hit j) ->
  exists e, es !! Z.to_nat j = Some e /\ holds es k (value e).
Proof.
  intros (e & k' & Hj & Hk & Hs)%loop_Hit.
  exists e. split; [done|]. by exists (Z.to_nat j), e, k'.
Qed.

Lemma vacant_absent f es c k j v :
  chain_ok es c ->
  set_entry_loop f es c k (home c k) = Done (Vacant j) -> ~ holds es k v.
Proof.
  intros Hch L H. destruct (chain_hit _ _ _ _ Hch H) as (j' & e & L' & _).
  by pose proof (loop_fuel_irrelevant _ _ _ _ _ _ _ _ L L').
Qed.

Lemma chain_ok_replicate n c : chain_ok (replicate n zero_entry) c.
Proof.
  intros j e k [-> _]%lookup_replicate Hk. done.
Qed.

Lemma holds_replicate n k v : ~ holds (replicate n zero_entry) k v.
Proof.
  intros (j & e & k' & [-> _]%lookup_replicate & Hk & _). done.
Qed.

Lemma holds_nil k v : ~ holds [] k v.
Proof. intros (j & e & k' & Hj & _). by rewrite lookup_nil in Hj. Qed.

Lemma holds_snoc es e k v :
  holds (es ++ [e]) k v <->
  holds es k v \/ (exists k', key e = Some k' /\ same_key k k' /\ value e = v).
Proof.
  split.
  - intros (j & e' & k' & Hj & Hk & Hs & Hv).
    apply lookup_app_Some in Hj as [Hj|[_ Hj]].
    + left. by exists j, e', k'.
    + right. apply list_lookup_singleton_Some in Hj as [_ ->]. by exists k'.
  - intros [(j & e' & k' & Hj & Hk & Hs & Hv)|(k' & Hk & Hs & Hv)].
    + exists j, e', k'. split; [|done]. by apply lookup_app_l_Some.
    + exists (Datatypes.length es), e, k'. split; [|done].
      by rewrite lookup_app_r, Nat.sub_diag.
Qed.

(** Overwriting the value of the slot the probe hit. *)
Lemma place_hit f es c k v i j e :
  array_ok es c -> chain_ok es c ->
  set_entry_loop f es c k i = Done (Hit j) ->
  es !! Z.to_nat j = Some e ->
  let es' := <[Z.to_nat j := {| key := key e; value := v |}]> es in
  array_ok es' c /\ chain_ok es' c /\ occupied es' = occupied es
  /\ holds es' k v.
Proof.
  intros [Hlen Hc] Hch L Hj es'.
  assert (key <$> es' = key <$> es) as Hkeys.
  { unfold es'. rewrite list_fmap_insert. simpl. apply list_insert_id.
    by rewrite list_lookup_fmap, Hj. }
  assert (Datatypes.length es' = Datatypes.length es) as Hlen'
    by apply length_insert.
  split; [|split; [|split]].
  - split; [lia|done].
  - intros j' e' k2 Hj' Hk2.
    assert (exists e2, es !! j' = Some e2 /\ key e2 = Some k2) as (e2 & H2 & H2k).
    { assert (key <$> es' !! j' = key <$> es !! j') as Hl
        by (by rewrite <- !list_lookup_fmap, Hkeys).
      rewrite Hj' in Hl. destruct (es !! j') as [e2|]; [|done].
      exists e2. split; [done|]. simpl in Hl. congruence. }
    rewrite Hlen', (loop_keys _ es' es) by done. by eapply Hch.
  - pose proof (occupied_insert es _ e {| key := key e; value := v |} Hj) as Ho.
    simpl in Ho. fold es' in Ho. destruct (is_Some_b (key e)); lia.
  - destruct (loop_Hit _ _ _ _ _ _ L) as (e2 & k' & He2 & Hk' & Hs).
    exists (Z.to_nat j), {| key := key e; value := v |}, k'.
    split; [|split; [|done]].
    + apply list_lookup_insert_eq. by eapply lookup_lt_Some.
    + simpl. congruence.
Qed.

(** Filling the empty slot the probe stopped on. *)
Lemma place_vacant f es c k k' v j :
  array_ok es c -> chain_ok es c ->
  set_entry_loop f es c k (home c k) = Done (Vacant j) ->
  same_key k k' ->
  let es' := <[Z.to_nat j := {| key := Some k'; value := v |}]> es in
  array_ok es' c /\ chain_ok es' c /\ occupied es' = S (occupied es)
  /\ (forall k2 v2,
        holds es' k2 v2 <-> holds es k2 v2 \/ (same_key k2 k' /\ v2 = v)).
Proof.
  intros [Hlen Hc] Hch L Hs es'.
  destruct (loop_Vacant _ _ _ _ _ _ L) as (e0 & Hj & H0).
  pose proof (lookup_lt_Some _ _ _ Hj) as Hjlt.
  pose proof (home_range c k Hc) as Hhome.
  pose proof (loop_range _ _ _ _ _ _ (proj1 Hc) Hhome L) as Hjr. simpl in Hjr.
  assert (Datatypes.length es' = Datatypes.length es) as Hlen'
    by apply length_insert.
  split; [|split; [|split]].
  - split; [lia|done].
  - intros j' e' k2 Hj' Hk2. rewrite Hlen'.
    destruct (decide (j' = Z.to_nat j)) as [->|Hne].
    + unfold es' in Hj'. rewrite list_lookup_insert_eq in Hj' by done.
      injection Hj' as <-. simpl in Hk2. injection Hk2 as <-.
      rewrite Z2Nat.id by lia.
      rewrite <- (loop_congr _ _ _ k k' _ Hs), <- (home_congr _ k k' Hs).
      apply loop_insert_here; [lia| |done].
      destruct (loop_terminates_empty (Datatypes.length es) es c k (home c k)
                  _ _ (conj Hlen Hc) Hj H0 Hhome) as [r Hr]; [lia|].
      by rewrite (loop_fuel_irrelevant _ _ _ _ _ _ _ _ Hr L) in Hr.
    + unfold es' in Hj'. rewrite list_lookup_insert_ne in Hj' by done.
      eapply loop_insert_other; [lia|by apply home_range|done|done| |done].
      by eapply Hch.
  - pose proof (occupied_insert es _ e0 {| key := Some k'; value := v |} Hj) as Ho.
    simpl in Ho. fold es' in Ho. rewrite H0 in Ho. simpl in Ho. lia.
  - intros k2 v2. split.
    + intros (j' & e' & k3 & Hj' & Hk3 & Hs3 & Hv).
      destruct (decide (j' = Z.to_nat j)) as [->|Hne].
      * unfold es' in Hj'. rewrite list_lookup_insert_eq in Hj' by done.
        injection Hj' as <-. simpl in *. injection Hk3 as <-. by right.
      * unfold es' in Hj'. rewrite list_lookup_insert_ne in Hj' by done.
        left. by exists j', e', k3.
    + intros [(j' & e' & k3 & Hj' & Hk3 & Hs3 & Hv)|[Hs3 ->]].
      * exists j', e', k3. split; [|done].
        unfold es'. rewrite list_lookup_insert_ne; [done|]. congruence.
      * exists (Z.to_nat j), {| key := Some k'; value := v |}, k'.
        split; [|done]. by apply list_lookup_insert_eq.
Qed.

(** ** [hashtable_get] and the contents *)

Lemma wf_room t : wf t -> (occupied (entries t) < Datatypes.length (entries t))%nat.
Proof.
  intros [[Hlen Hc] _ Hcount Hload _].
  pose proof (Z.div_lt (capacity t) 2). lia.
Qed.

Lemma get_holds f t k v :
  chain_ok (entries t) (capacity t) -> holds (entries t) k v ->
  (Datatypes.length (entries t) <= f)%nat ->
  hashtable_get f t k = Done v.
Proof.
  intros Hch H Hf. unfold hashtable_get. rewrite get_loop_probe. fold (home (capacity t) k).
  destruct (chain_hit _ _ _ _ Hch H) as (j & e & L & Hj & <-).
  rewrite (loop_mono _ f _ _ _ _ _ L Hf). simpl.
  unfold entry_at. by rewrite Nat2Z.id, Hj.
Qed.

Lemma get_absent f t k :
  wf t -> (forall v, ~ holds (entries t) k v) ->
  (Datatypes.length (entries t) <= f)%nat ->
  hashtable_get f t k = Done NULL.
Proof.
  intros Hwf Habs Hf. unfold hashtable_get. rewrite get_loop_probe.
  fold (home (capacity t) k).
  destruct (loop_terminates f (entries t) (capacity t) k (home (capacity t) k))
    as [r L]; [apply Hwf|by apply wf_room|apply home_range, Hwf|done|].
  rewrite L. destruct r as [j|j]; [|done].
  destruct (hit_holds _ _ _ _ _ _ L) as (e & _ & H). by destruct (Habs _ H).
Qed.

Lemma get_same_contents f f' t t' k :
  wf t -> wf t' ->
  (forall v, holds (entries t') k v <-> holds (entries t) k v) ->
  (Datatypes.length (entries t) <= f)%nat ->
  (Datatypes.length (entries t') <= f')%nat ->
  hashtable_get f' t' k = hashtable_get f t k
  /\ exists v, hashtable_get f t k = Done v.
Proof.
  intros Hwf Hwf' Heq Hf Hf'.
  destruct (loop_terminates f (entries t) (capacity t) k (home (capacity t) k))
    as [r L]; [apply Hwf|by apply wf_room|apply home_range, Hwf|done|].
  destruct r as [j|j].
  - destruct (hit_holds _ _ _ _ _ _ L) as (e & _ & H).
    rewrite (get_holds f t k (value e)); [|apply Hwf|done..].
    rewrite (get_holds f' t' k (value e)); [eauto|apply Hwf'|by apply Heq|done].
  - assert (forall v, ~ holds (entries t) k v) as Habs
      by (intros v; eapply vacant_absent; [apply Hwf|done]).
    rewrite (get_absent f t k), (get_absent f' t' k); eauto.
    intros v Hv. by apply (Habs v), Heq.
Qed.

(** ** [hashtable_set_entry] by the way its probe ends *)

Lemma set_entry_hit fuel es c k v pl h j e :
  set_entry_loop fuel es c k (home c k) = Done (Hit j) ->
  es !! Z.to_nat j = Some e ->
  hashtable_set_entry fuel es c k v pl h
  = Done ((key e, <[Z.to_nat j := {| key := key e; value := v |}]> es, pl), h).
Proof.
  intros L Hj. unfold hashtable_set_entry, set_entry_from, bind, lift.
  fold (home c k). rewrite L. simpl. unfold entry_at. by rewrite Hj.
Qed.

Lemma set_entry_vacant_move fuel es c k v h j :
  set_entry_loop fuel es c k (home c k) = Done (Vacant j) ->
  hashtable_set_entry fuel es c k v None h
  = Done ((Some k, <[Z.to_nat j := {| key := Some k; value := v |}]> es, None), h).
Proof.
  intros L. unfold hashtable_set_entry, set_entry_from, bind, lift.
  fold (home c k). by rewrite L.
Qed.

Lemma set_entry_vacant_copy fuel es c k v len h j :
  set_entry_loop fuel es c k (home c k) = Done (Vacant j) ->
  hashtable_set_entry fuel es c k v (Some len) h
  = match h with
    | false :: h' => Done ((None, es, Some len), h')
    | _ =>
        Done ((Some (c_str k),
               <[Z.to_nat j := {| key := Some (c_str k); value := v |}]> es,
               Some (u64 (len + 1))), tail h)
    end.
Proof.
  intros L. unfold hashtable_set_entry, set_entry_from, bind, lift.
  fold (home c k). rewrite L. simpl. unfold strdup, bind, alloc, ret.
  by destruct h as [|[] h'].
Qed.

(** ** Growth *)

Lemma expand_loop_S fuel t n i new c2 h e :
  entries t !! Z.to_nat i = Some e ->
  expand_loop fuel t (S n) i new c2 h =
  match key e with
  | Some k =>
      obind (hashtable_set_entry fuel new c2 k (value e) None h) (fun r =>
        expand_loop fuel t n (u64 (i + 1)) (snd (fst (fst r))) c2 (snd r))
  | None => expand_loop fuel t n (u64 (i + 1)) new c2 h
  end.
Proof.
  intros He. simpl. unfold bind, lift, entry_at. rewrite He. simpl.
  destruct (key e); simpl; [|done].
  by destruct (hashtable_set_entry fuel new c2 s (value e) None h).
Qed.

Lemma expand_loop_spec fuel t c2 :
  array_ok (entries t) (capacity t) -> chain_ok (entries t) (capacity t) ->
  forall (n m : nat) new h,
    (n + m = Datatypes.length (entries t))%nat ->
    array_ok new c2 -> chain_ok new c2 ->
    (occupied new + occupied (drop m (entries t)) < Datatypes.length new)%nat ->
    (Datatypes.length new <= fuel)%nat ->
    (forall k v, holds new k v <-> holds (take m (entries t)) k v) ->
    exists new',
      expand_loop fuel t n (Z.of_nat m) new c2 h = Done (new', h)
      /\ array_ok new' c2 /\ chain_ok new' c2
      /\ occupied new' = (occupied new + occupied (drop m (entries t)))%nat
      /\ (forall k v, holds new' k v <-> holds (entries t) k v).
Proof.
  intros [Hlen Hc] Hch.
  induction n as [|n IH]; intros m new h Hn Hanew Hchnew Hocc Hf Hholds.
  - exists new. simpl in Hn. subst m.
    rewrite drop_all, take_ge in * by done. simpl.
    repeat split; try done; try apply Hanew; by apply Hholds.
  - destruct (lookup_lt_is_Some_2 (entries t) m) as [e He]; [lia|].
    rewrite (expand_loop_S _ _ _ _ _ _ _ e) by (by rewrite Nat2Z.id).
    rewrite u64_small by lia.
    replace (Z.of_nat m + 1) with (Z.of_nat (S m)) by lia.
    rewrite (drop_S _ _ _ He) in Hocc |- *. simpl in Hocc |- *.
    assert (forall k v, holds (take (S m) (entries t)) k v <->
              holds (take m (entries t)) k v \/
              (exists k', key e = Some k' /\ same_key k k' /\ value e = v))
      as Htake.
    { intros k v. rewrite (take_S_r _ _ _ He). apply holds_snoc. }
    destruct (key e) as [k|] eqn:Hk; simpl in Hocc |- *.
    + destruct (loop_terminates fuel new c2 k (home c2 k)) as [r L];
        [done|lia|apply home_range, Hanew|done|].
      destruct r as [j|j].
      { exfalso. destruct (hit_holds _ _ _ _ _ _ L) as (e' & _ & H).
        apply Hholds in H as (j1 & e1 & k1 & [Hj1 Hlt]%lookup_take_Some & Hk1 & Hs & _).
        pose proof (chain_distinct _ _ _ _ _ _ _ _ Hch He Hk Hj1 Hk1 Hs). lia. }
      rewrite (set_entry_vacant_move _ _ _ _ _ _ _ L). simpl.
      destruct (place_vacant _ _ _ _ k (value e) _ Hanew Hchnew L
                  (same_key_refl k)) as (Ha1 & Hch1 & Ho1 & Hh1).
      set (new1 := <[Z.to_nat j := {| key := Some k; value := value e |}]> new) in *.
      assert (Datatypes.length new1 = Datatypes.length new) as Hl1
        by apply length_insert.
      destruct (IH (S m) new1 h) as (new' & E & Ha' & Hch' & Ho' & Hh');
        [lia|done|done|lia|lia| |].
      { intros k2 v2. rewrite Hh1, Htake, Hholds.
        split; (intros [?|?]; [by left|right]).
        - destruct H as [Hs ->]. by exists k.
        - destruct H as (k' & [= <-] & Hs & Hv). done. }
      exists new'. repeat split; try done; try apply Ha'; try apply Hh'; lia.
    + destruct (IH (S m) new h) as (new' & E & Ha' & Hch' & Ho' & Hh');
        [lia|done|done|lia|lia| |].
      { intros k2 v2. rewrite Htake, Hholds.
        split; [by left|]. by intros [?|(k' & ? & _)]. }
      exists new'. repeat split; try done; try apply Ha'; try apply Hh'.
Qed.

Lemma u64_double_overflow c :
  0 <= c < 2 ^ 64 -> 2 ^ 64 <= 2 * c -> u64 (c * 2) = c * 2 - 2 ^ 64.
Proof.
  intros Hc Ho. unfold u64. symmetry.
  apply (Z.mod_unique (c * 2) (2 ^ 64) 1); lia.
Qed.

Lemma expand_overflow fuel t h :
  0 <= capacity t < 2 ^ 64 -> 2 ^ 64 <= 2 * capacity t ->
  hashtable_expand fuel t h = Done ((false, t), h).
Proof.
  intros Hc Ho. unfold hashtable_expand.
  rewrite u64_double_overflow by done.
  destruct (Z.ltb_spec (capacity t * 2 - 2 ^ 64) (capacity t)); [done|lia].
Qed.

Lemma expand_alloc_fail fuel t h :
  0 <= capacity t -> 2 * capacity t < 2 ^ 64 ->
  hashtable_expand fuel t (false :: h) = Done ((false, t), h).
Proof.
  intros Hc Ho. unfold hashtable_expand. rewrite u64_small by lia.
  destruct (Z.ltb_spec (capacity t * 2) (capacity t)); [lia|done].
Qed.

Lemma expand_grows fuel t h :
  wf t -> 2 * capacity t < 2 ^ 64 ->
  2 * capacity t <= Z.of_nat fuel ->
  head h <> Some false ->
  exists t',
    hashtable_expand fuel t h = Done ((true, t'), tail h)
    /\ wf t' /\ capacity t' = 2 * capacity t /\ length t' = length t
    /\ (forall k v, holds (entries t') k v <-> holds (entries t) k v).
Proof.
  intros Hwf Ho Hf Hh. pose proof Hwf as [[Hlen Hc] [p Hp] Hcount Hload Hch].
  unfold hashtable_expand. rewrite u64_small by lia.
  destruct (Z.ltb_spec (capacity t * 2) (capacity t)); [lia|].
  unfold bind, calloc, alloc, ret.
  set (new := replicate (Z.to_nat (capacity t * 2)) zero_entry).
  assert (Datatypes.length new = Z.to_nat (capacity t * 2)) as Hlnew
    by apply length_replicate.
  pose proof (Z.div_lt (capacity t) 2) as Hdiv.
  destruct (expand_loop_spec fuel t (capacity t * 2) (conj Hlen Hc) Hch
              (Z.to_nat (capacity t)) O new (tail h))
    as (new' & E & [Hlen' Hc'] & Hch' & Ho' & Hh'); simpl.
  - lia.
  - split; lia.
  - apply chain_ok_replicate.
  - unfold new at 1. rewrite occupied_replicate, drop_0. lia.
  - lia.
  - intros k v. split; intros Hkv.
    + by apply holds_replicate in Hkv.
    + by apply holds_nil in Hkv.
  - exists {| entries := new'; capacity := capacity t * 2; length := length t |}.
    split.
    { change (Z.of_nat 0) with 0 in E.
      destruct h as [|[] h']; simpl in *; try done; fold new; by rewrite E. }
    simpl. split; [|split; [lia|done]].
    unfold new in Ho'. rewrite occupied_replicate, drop_0 in Ho'. simpl in Ho'.
    constructor; simpl; try done.
    + exists (S p). rewrite Hp, Nat2Z.inj_succ, Z.pow_succ_r; lia.
    + lia.
    + rewrite Z.div_mul by lia. lia.
Qed.

(** ** Placing an entry in a table with room *)

Lemma set_tail_spec fuel t k v h :
  wf t -> length t < capacity t / 2 ->
  capacity t <= Z.of_nat fuel ->
  exists r t' h',
    set_tail fuel t k v h = Done ((r, t'), h')
    /\ wf t' /\ capacity t' = capacity t
    /\ match r with
       | None => t' = t
       | Some kk =>
           same_key k kk /\ holds (entries t') k v
           /\ ((exists v0, holds (entries t) k v0) -> length t' = length t)
           /\ ((forall v0, ~ holds (entries t) k v0) ->
               length t' = length t + 1)
       end.
Proof.
  intros Hwf Hroom Hf. pose proof Hwf as [[Hlen Hc] Hp Hcount Hload Hch].
  pose proof (Z.div_lt (capacity t) 2) as Hdiv.
  destruct (loop_terminates fuel (entries t) (capacity t) k
              (home (capacity t) k)) as [r L];
    [done|by apply wf_room|by apply home_range|lia|].
  unfold set_tail, bind. destruct r as [j|j].
  - destruct (hit_holds _ _ _ _ _ _ L) as (e & Hj & He).
    destruct (loop_Hit _ _ _ _ _ _ L) as (e' & kk & Hj' & Hkk & Hs).
    rewrite Hj in Hj'. injection Hj' as <-.
    rewrite (set_entry_hit _ _ _ _ _ _ _ _ _ L Hj). simpl. unfold ret.
    destruct (place_hit _ _ _ _ v _ _ _ (conj Hlen Hc) Hch L Hj)
      as (Ha' & Hch' & Ho' & Hh').
    eexists _, _, _. split; [done|]. rewrite Hkk in *. simpl.
    split; [|split; [done|]].
    + constructor; simpl; try done. by rewrite Ho'.
    + repeat split; try done. intros Habs. by destruct (Habs _ He).
  - rewrite (set_entry_vacant_copy _ _ _ _ _ _ _ _ L).
    destruct (place_vacant _ _ _ _ (c_str k) v _ (conj Hlen Hc) Hch L
                (same_key_c_str k)) as (Ha' & Hch' & Ho' & Hh').
    assert (forall v0, ~ holds (entries t) k v0) as Habs
      by (intros v0; by eapply vacant_absent).
    assert (u64 (length t + 1) = length t + 1) as Hu
      by (apply u64_small; lia).
    assert (wf {| entries := <[Z.to_nat j := {| key := Some (c_str k);
                                                value := v |}]> (entries t);
                  capacity := capacity t; length := length t + 1 |}) as Hwf'.
    { constructor; simpl; try done; lia. }
    destruct h as [|[] h']; simpl; unfold ret; eexists _, _, _;
      (split; [done|]); simpl.
    3: { split; [|split; [done|]]; by destruct t. }
    all: rewrite Hu; split; [done|split; [done|]].
    all: split; [apply same_key_c_str|].
    all: split; [apply Hh'; right; split; [apply same_key_c_str|done]|].
    all: split; [intros [v0 H0]; by destruct (Habs v0)|done].
Qed.

(** ** More fuel changes no result *)

Lemma set_entry_mono f f' es c k v pl h x :
  (f <= f')%nat ->
  hashtable_set_entry f es c k v pl h = Done x ->
  hashtable_set_entry f' es c k v pl h = Done x.
Proof.
  intros Hle. unfold hashtable_set_entry, set_entry_from, bind, lift.
  destruct (set_entry_loop f es c k _) as [r| | |] eqn:L; simpl; try done.
  by rewrite (loop_mono _ _ _ _ _ _ _ L Hle).
Qed.

Lemma expand_loop_mono f f' t c2 n :
  (f <= f')%nat ->
  forall i new h x,
    expand_loop f t n i new c2 h = Done x ->
    expand_loop f' t n i new c2 h = Done x.
Proof.
  intros Hle. induction n as [|n IH]; intros i new h x H; [done|].
  destruct (entries t !! Z.to_nat i) as [e|] eqn:He.
  - rewrite (expand_loop_S _ _ _ _ _ _ _ _ He) in H.
    rewrite (expand_loop_S _ _ _ _ _ _ _ _ He).
    destruct (key e) as [k|]; [|by apply IH].
    destruct (hashtable_set_entry f new c2 k (value e) None h)
      as [r| | |] eqn:E; simpl in H; try done.
    rewrite (set_entry_mono _ _ _ _ _ _ _ _ _ Hle E). simpl. by apply IH.
  - simpl in H. unfold bind, lift, entry_at in H. by rewrite He in H.
Qed.

Lemma expand_mono f f' t h x :
  (f <= f')%nat ->
  hashtable_expand f t h = Done x -> hashtable_expand f' t h = Done x.
Proof.
  intros Hle. unfold hashtable_expand.
  destruct (u64 (capacity t * 2) <? capacity t); [done|].
  unfold bind. destruct (calloc _ h) as [[p h1]| | |]; simpl; try done.
  destruct p as [new|]; [|done].
  destruct (expand_loop f t _ 0 new _ h1) as [r| | |] eqn:E; simpl; try done.
  by rewrite (expand_loop_mono _ _ _ _ _ Hle _ _ _ _ E).
Qed.

Lemma set_tail_mono f f' t k v h x :
  (f <= f')%nat ->
  set_tail f t k v h = Done x -> set_tail f' t k v h = Done x.
Proof.
  intros Hle. unfold set_tail, bind.
  destruct (hashtable_set_entry f _ _ k v _ h) as [r| | |] eqn:E;
    simpl; try done.
  by rewrite (set_entry_mono _ _ _ _ _ _ _ _ _ Hle E).
Qed.

Lemma set_mono ndebug f f' t k v h x :
  (f <= f')%nat ->
  hashtable_set ndebug f t k v h = Done x ->
  hashtable_set ndebug f' t k v h = Done x.
Proof.
  intros Hle. unfold hashtable_set, bind.
  destruct (assert_ ndebug _ h) as [[[] h0]| | |]; simpl; try done.
  destruct (v =? NULL); [done|].
  destruct (length t >=? capacity t / 2); [|by apply set_tail_mono].
  destruct (hashtable_expand f t h0) as [[[b t1] h1]| | |] eqn:E;
    simpl; try done.
  rewrite (expand_mono _ _ _ _ _ Hle E). simpl.
  destruct b; simpl; [by apply set_tail_mono|done].
Qed.

(** ** [hashtable_set] *)

Lemma set_null ndebug fuel t k h :
  hashtable_set ndebug fuel t k NULL h
  = if ndebug then Done ((None, t), h) else Aborted.
Proof. unfold hashtable_set, bind, assert_. by destruct ndebug. Qed.

Lemma set_not_null ndebug fuel t k v h :
  v <> NULL ->
  hashtable_set ndebug fuel t k v h =
  if length t >=? capacity t / 2 then
    obind (hashtable_expand fuel t h) (fun r =>
      if fst (fst r) then set_tail fuel (snd (fst r)) k v (snd r)
      else Done ((None, snd (fst r)), snd r))
  else set_tail fuel t k v h.
Proof.
  intros Hv. unfold hashtable_set, bind, assert_.
  destruct (Z.eqb_spec v NULL); [done|].
  rewrite orb_true_r. simpl.
  destruct (length t >=? capacity t / 2); [|done].
  destruct (hashtable_expand fuel t h) as [[[[] t1] h1]| | |]; done.
Qed.

Lemma set_spec ndebug fuel t k v h :
  wf t -> v <> NULL -> 2 * capacity t <= Z.of_nat fuel ->
  exists r t' h',
    hashtable_set ndebug fuel t k v h = Done ((r, t'), h')
    /\ set_post t k v r t'.
Proof.
  intros Hwf Hv Hf. pose proof Hwf as [[Hlen Hc] Hp Hcount Hload Hch].
  pose proof (Z.div_lt (capacity t) 2) as Hdiv.
  rewrite set_not_null by done.
  destruct (Z.geb_spec (length t) (capacity t / 2)) as [Hfull|Hroom].
  - destruct (Z.le_gt_cases (2 ^ 64) (2 * capacity t)) as [Ho|Ho].
    { rewrite expand_overflow by (done || lia). simpl.
      eexists _, _, _. split; [done|]. split; [done|]. split; [by left|].
      repeat split; done. }
    destruct (decide (head h = Some false)) as [Hh|Hh].
    { destruct h as [|[] h']; try done.
      rewrite expand_alloc_fail by lia. simpl.
      eexists _, _, _. split; [done|]. split; [done|]. split; [by left|].
      repeat split; done. }
    destruct (expand_grows fuel t h Hwf) as (t1 & E & Hwf1 & Hc1 & Hl1 & Hh1);
      [lia|done|done|].
    rewrite E. simpl.
    destruct (set_tail_spec fuel t1 k v (tail h) Hwf1)
      as (r & t' & h' & E' & Hwf' & Hc' & Hr); [|lia|].
    { rewrite Hc1, Hl1, Z.mul_comm, Z.div_mul by lia. lia. }
    exists r, t', h'. split; [done|]. split; [done|]. split; [right; lia|].
    destruct r as [kk|].
    + destruct Hr as (Hs & Hk & Hsame & Hnew). repeat split; try done.
      * intros [v0 H0]. rewrite <- Hl1. apply Hsame. exists v0. by apply Hh1.
      * intros Habs. rewrite <- Hl1. apply Hnew.
        intros v0 H0. by apply (Habs v0), Hh1.
    + subst t'. repeat split; try done; try apply Hh1. lia.
  - destruct (set_tail_spec fuel t k v h Hwf)
      as (r & t' & h' & E' & Hwf' & Hc' & Hr); [lia|lia|].
    exists r, t', h'. split; [done|]. split; [done|]. split; [by left|].
    destruct r as [kk|]; [done|]. subst t'. repeat split; done.
Qed.

Lemma set_sound ndebug fuel t k v h r t' h' :
  wf t -> v <> NULL ->
  hashtable_set ndebug fuel t k v h = Done ((r, t'), h') ->
  set_post t k v r t'.
Proof.
  intros Hwf Hv H.
  destruct (set_spec ndebug (Nat.max fuel (Z.to_nat (2 * capacity t)))
              t k v h Hwf Hv) as (r2 & t2 & h2 & E & Hpost); [lia|].
  apply (set_mono _ _ (Nat.max fuel (Z.to_nat (2 * capacity t)))) in H; [|lia].
  rewrite H in E. by injection E as <- <- <-.
Qed.

Lemma wf_create h t h' : hashtable_create h = Done (Some t, h') -> wf t.
Proof.
  intros H.
  assert (t = {| entries := replicate 1 zero_entry; capacity := 1;
                 length := 0 |}) as ->.
  { unfold hashtable_create, bind, calloc, alloc, ret in H.
    destruct h as [|[] [|[] h]]; simpl in H; by injection H. }
  constructor; simpl; try done.
  - by exists O.
  - apply (chain_ok_replicate 1).
Qed.

Lemma reachable_wf t : reachable t -> wf t.
Proof.
  induction 1 as [h t h' H|ndebug fuel t k v h r t' h' _ IH H].
  - by eapply wf_create.
  - destruct (decide (v = NULL)) as [->|Hv].
    + rewrite set_null in H. destruct ndebug; [|done]. by injection H as _ <- _.
    + by destruct (set_sound _ _ _ _ _ _ _ _ _ IH Hv H).
Qed.

Lemma expand_sound fuel t h t' h' :
  wf t -> hashtable_expand fuel t h = Done ((true, t'), h') ->
  wf t' /\ capacity t' = 2 * capacity t /\ length t' = length t
  /\ (forall k v, holds (entries t') k v <-> holds (entries t) k v).
Proof.
  intros Hwf H. pose proof Hwf as [[Hlen Hc] _ _ _ _].
  apply (expand_mono _ (Nat.max fuel (Z.to_nat (2 * capacity t)))) in H; [|lia].
  destruct (Z.le_gt_cases (2 ^ 64) (2 * capacity t)) as [Ho|Ho].
  { rewrite expand_overflow in H by (done || lia). done. }
  destruct (decide (head h = Some false)) as [Hh|Hh].
  { destruct h as [|[] h0]; try done. rewrite expand_alloc_fail in H by lia. done. }
  destruct (expand_grows (Nat.max fuel (Z.to_nat (2 * capacity t))) t h Hwf)
    as (t1 & E & Hwf1 & Hc1 & Hl1 & Hh1); [lia|lia|done|].
  rewrite E in H. by injection H as <- _.
Qed.

(** * The claims *)

Local Ltac wf_fresh :=
  constructor; simpl;
  [ split; [reflexivity | lia]
  | exists O; reflexivity
  | reflexivity
  | vm_compute; discriminate
  | intros [|j] e k Hj Hk; simpl in Hj;
    [injection Hj as <-; discriminate Hk | discriminate Hj] ].

(** ** C1: round trip *)

(** C1. For every table [t] satisfying the representation invariant, every
    key [k] and every value [v] other than [NULL]: if [hashtable_set t k v]
    returns a key (it succeeds), then [hashtable_get] on the table it
    leaves returns exactly [v] (given fuel for a full turn of the array). *)
Theorem set_then_get ndebug fuel fuel' t k v h kk t' h' :
  wf t -> v <> NULL ->
  hashtable_set ndebug fuel t k v h = Done ((Some kk, t'), h') ->
  capacity t' <= Z.of_nat fuel' ->
  hashtable_get fuel' t' k = Done v.
Proof.
  intros Hwf Hv H Hf.
  destruct (set_sound _ _ _ _ _ _ _ _ _ Hwf Hv H) as (Hwf' & _ & _ & Hk & _).
  apply get_holds; [apply Hwf'|done|].
  destruct Hwf' as [[Hlen _] _ _ _ _]. lia.
Qed.

Lemma set_then_get_witness : hashtable_get 2 table_a "a" = Done 7.
Proof.
  apply (set_then_get false 2 2 fresh_table "a" 7 [] "a"%string table_a []).
  - wf_fresh.
  - discriminate.
  - reflexivity.
  - simpl. lia.
Defined.

(** ** C2: a failed [hashtable_set] *)

(** C2, as stated, fails: on a new table (capacity 1), with the request for
    the doubled array granted and the copy of the key refused,
    [hashtable_set] returns [NULL] and leaves the capacity at 2. *)
Lemma failed_set_keeps_growth :
  reachable fresh_table
  /\ hashtable_set false 2 fresh_table "a" 7 [true; false]
     = Done ((None, table_empty2), [])
  /\ capacity table_empty2 <> capacity fresh_table.
Proof.
  split; [|split].
  - by apply (reach_create [] fresh_table []).
  - reflexivity.
  - discriminate.
Qed.

(** C2, amended. When [hashtable_set t k v] fails (returns [NULL] for a
    value other than [NULL]), the table it leaves has the same length and
    binds the same keys to the same values, so that [hashtable_get] answers
    as before for every key; the table is either unchanged or, when the
    growth had succeeded before the copy of the key failed, has twice the
    capacity. The invariant still holds. *)
Theorem failed_set_keeps_contents ndebug fuel t k v h t' h' :
  wf t -> v <> NULL ->
  hashtable_set ndebug fuel t k v h = Done ((None, t'), h') ->
  wf t'
  /\ hashtable_length t' = hashtable_length t
  /\ (t' = t \/ capacity t' = 2 * capacity t)
  /\ (forall k2 v2, holds (entries t') k2 v2 <-> holds (entries t) k2 v2)
  /\ (forall k2 f f',
        capacity t <= Z.of_nat f -> capacity t' <= Z.of_nat f' ->
        hashtable_get f' t' k2 = hashtable_get f t k2).
Proof.
  intros Hwf Hv H.
  destruct (set_sound _ _ _ _ _ _ _ _ _ Hwf Hv H)
    as (Hwf' & Hcap & Hlen & Hh & Hsame).
  split; [done|]. split; [done|]. split; [|split; [done|]].
  - destruct Hcap as [Hc|Hc]; [left; by apply Hsame|by right].
  - intros k2 f f' Hf Hf'.
    apply (get_same_contents f f' t t' k2 Hwf Hwf').
    + intros v2. apply Hh.
    + destruct Hwf as [[Hl _] _ _ _ _]. lia.
    + destruct Hwf' as [[Hl _] _ _ _ _]. lia.
Qed.

Lemma failed_set_keeps_contents_witness :
  wf table_empty2
  /\ hashtable_length table_empty2 = hashtable_length fresh_table
  /\ (table_empty2 = fresh_table
      \/ capacity table_empty2 = 2 * capacity fresh_table)
  /\ (forall k2 v2, holds (entries table_empty2) k2 v2
                    <-> holds (entries fresh_table) k2 v2)
  /\ (forall k2 f f',
        capacity fresh_table <= Z.of_nat f ->
        capacity table_empty2 <= Z.of_nat f' ->
        hashtable_get f' table_empty2 k2 = hashtable_get f fresh_table k2).
Proof.
  apply (failed_set_keeps_contents false 2 fresh_table "a" 7 [true; false]
           table_empty2 []).
  - wf_fresh.
  - discriminate.
  - reflexivity.
Defined.

(** ** C3: a [NULL] value *)

Lemma loop_not_abort f es c k i : set_entry_loop f es c k i <> Aborted.
Proof.
  revert i. induction f as [|f IH]; intros i; [done|]. rewrite loop_S.
  destruct (es !! Z.to_nat i) as [e|]; [|done].
  destruct (key e) as [k'|]; [|done]. by destruct (strcmp k k' =? 0).
Qed.

Lemma set_entry_not_abort f es c k v pl h :
  hashtable_set_entry f es c k v pl h <> Aborted.
Proof.
  unfold hashtable_set_entry, set_entry_from, bind, lift.
  pose proof (loop_not_abort f es c k (Z.land (hash_key k) (u64 (c - 1)))) as Hl.
  destruct (set_entry_loop f es c k _) as [[j|j]| | |]; simpl; try done.
  - unfold entry_at. by destruct (es !! Z.to_nat j).
  - destruct pl as [len|]; [|done].
    unfold strdup, bind, alloc, ret. by destruct h as [|[] h'].
Qed.

Lemma expand_loop_not_abort f t c2 n i new h :
  expand_loop f t n i new c2 h <> Aborted.
Proof.
  revert i new h. induction n as [|n IH]; intros i new h; [done|].
  destruct (entries t !! Z.to_nat i) as [e|] eqn:He.
  - rewrite (expand_loop_S _ _ _ _ _ _ _ _ He).
    destruct (key e) as [k|]; [|apply IH].
    pose proof (set_entry_not_abort f new c2 k (value e) None h) as Hs.
    destruct (hashtable_set_entry f new c2 k (value e) None h); simpl;
      first [done|apply IH].
  - simpl. unfold bind, lift, entry_at. by rewrite He.
Qed.

Lemma expand_not_abort f t h : hashtable_expand f t h <> Aborted.
Proof.
  unfold hashtable_expand.
  destruct (u64 (capacity t * 2) <? capacity t); [done|].
  unfold bind, calloc, alloc, ret.
  destruct h as [|[] h0]; simpl; try done.
  - pose proof (expand_loop_not_abort f t (u64 (capacity t * 2))
                  (Z.to_nat (capacity t)) 0
                  (replicate (Z.to_nat (u64 (capacity t * 2))) zero_entry) [])
      as He.
    by destruct (expand_loop f t _ 0 _ _ []).
  - pose proof (expand_loop_not_abort f t (u64 (capacity t * 2))
                  (Z.to_nat (capacity t)) 0
                  (replicate (Z.to_nat (u64 (capacity t * 2))) zero_entry) h0)
      as He.
    by destruct (expand_loop f t _ 0 _ _ h0).
Qed.

Lemma set_tail_not_abort f t k v h : set_tail f t k v h <> Aborted.
Proof.
  unfold set_tail, bind.
  pose proof (set_entry_not_abort f (entries t) (capacity t) k v
                (Some (length t)) h) as Hs.
  by destruct (hashtable_set_entry f _ _ k v _ h).
Qed.

(** C3, as stated, fails in a program built with [NDEBUG]: the assertion
    is compiled out and the guard after it returns [NULL], so that on a
    new table a call with the value [NULL] and a call with the value 7
    whose request for the doubled array is refused end in the same result,
    [NULL] with the table unchanged. *)
Lemma null_value_returns_like_out_of_memory :
  hashtable_set true 2 fresh_table "a" NULL []
  = Done ((None, fresh_table), [])
  /\ hashtable_set true 2 fresh_table "a" 7 [false]
     = Done ((None, fresh_table), []).
Proof. split; reflexivity. Qed.

(** C3, amended. Calling [hashtable_set] with the value [NULL] is caught
    in a way that depends on the build. Built with its assertions (no
    [NDEBUG]), the call ends in the failed assertion, whatever the table,
    the key and the allocator, and no call with another value ends so, in
    particular none that fails for lack of memory: the violation is told
    apart from the allocation failure. Built with [NDEBUG], the guard
    after the assertion makes the call return [NULL] with the table and
    the allocator untouched, which is also what an allocation failure
    returns. *)
Theorem null_value_signal_depends_on_build ndebug fuel t k h :
  hashtable_set ndebug fuel t k NULL h
  = (if ndebug then Done ((None, t), h) else Aborted)
  /\ (forall ndebug' fuel' t' k' v' h',
        v' <> NULL -> hashtable_set ndebug' fuel' t' k' v' h' <> Aborted).
Proof.
  split; [apply set_null|].
  intros ndebug' fuel' t' k' v' h' Hv. rewrite set_not_null by done.
  destruct (length t' >=? capacity t' / 2); [|apply set_tail_not_abort].
  pose proof (expand_not_abort fuel' t' h') as He.
  destruct (hashtable_expand fuel' t' h') as [[[[] t1] h1]| | |]; simpl;
    first [done|apply set_tail_not_abort].
Qed.

(** ** C5: the invariants of reachable tables *)

(** C5. Every table made by [hashtable_create] and passed through any
    calls of [hashtable_set] that returned, successful or failed, has a
    capacity that is a power of two and at least 1, and a length of at
    most half its capacity. *)
Theorem reachable_invariants t :
  reachable t ->
  (exists n : nat, capacity t = 2 ^ Z.of_nat n)
  /\ 1 <= capacity t
  /\ length t <= capacity t / 2.
Proof.
  intros [[_ [Hc _]] Hp _ Hload _]%reachable_wf. done.
Qed.

Lemma reachable_invariants_witness :
  (exists n : nat, capacity table_a = 2 ^ Z.of_nat n)
  /\ 1 <= capacity table_a
  /\ length table_a <= capacity table_a / 2.
Proof.
  apply (reachable_invariants table_a).
  apply (reach_set false 2 fresh_table "a" 7 [] (Some "a"%string) table_a []).
  - by apply (reach_create [] fresh_table []).
  - reflexivity.
Defined.

(** ** C4: growth *)

Lemma grown_sound t t' :
  wf t -> grown t t' ->
  wf t' /\ length t' = length t
  /\ (exists n : nat, capacity t' = 2 ^ Z.of_nat n * capacity t)
  /\ (forall k v, holds (entries t') k v <-> holds (entries t) k v).
Proof.
  intros Hwf Hg. induction Hg as [t|fuel t h t1 h1 t2 E _ IH].
  - split; [done|]. split; [done|]. split; [|done].
    exists O. simpl. lia.
  - destruct (expand_sound _ _ _ _ _ Hwf E) as (Hwf1 & Hc1 & Hl1 & Hh1).
    destruct (IH Hwf1) as (Hwf2 & Hl2 & [n Hc2] & Hh2).
    split; [done|]. split; [congruence|]. split.
    + exists (S n). rewrite Hc2, Hc1, Nat2Z.inj_succ, Z.pow_succ_r; lia.
    + intros k v. by rewrite Hh2, Hh1.
Qed.

Local Ltac wf_table_a :=
  constructor; simpl;
  [ split; [reflexivity | lia]
  | exists 1%nat; reflexivity
  | reflexivity
  | vm_compute; discriminate
  | intros [|[|j]] e k Hj Hk; simpl in Hj;
    [ injection Hj as <-; simpl in Hk; injection Hk as <-;
      vm_compute; reflexivity
    | injection Hj as <-; discriminate Hk
    | discriminate Hj ] ].

(** C4. Growth keeps the contents. From a table [t] satisfying the
    invariant, after any number of successful calls of [hashtable_expand]
    (each doubles the capacity and places every occupied entry again by its
    hash), the length is the one of [t] and [hashtable_get] returns, for
    every key, what it returned on [t]: the value of a key that was present,
    [NULL] for an absent one. The invariant holds again, which is what lets
    the growths follow each other. *)
Theorem growth_keeps_contents t t' :
  wf t -> grown t t' ->
  wf t'
  /\ hashtable_length t' = hashtable_length t
  /\ (exists n : nat, capacity t' = 2 ^ Z.of_nat n * capacity t)
  /\ (forall k f f',
        capacity t <= Z.of_nat f -> capacity t' <= Z.of_nat f' ->
        exists v, hashtable_get f t k = Done v
                  /\ hashtable_get f' t' k = Done v).
Proof.
  intros Hwf Hg.
  destruct (grown_sound _ _ Hwf Hg) as (Hwf' & Hl & Hc & Hh).
  split; [done|]. split; [done|]. split; [done|].
  intros k f f' Hf Hf'.
  destruct (get_same_contents f f' t t' k Hwf Hwf') as [E [v Hv]].
  - intros v. apply Hh.
  - destruct Hwf as [[Hlen _] _ _ _ _]. lia.
  - destruct Hwf' as [[Hlen _] _ _ _ _]. lia.
  - exists v. by rewrite E.
Qed.

Lemma growth_keeps_contents_witness :
  wf table_a4
  /\ hashtable_length table_a4 = hashtable_length table_a
  /\ (exists n : nat, capacity table_a4 = 2 ^ Z.of_nat n * capacity table_a)
  /\ (forall k f f',
        capacity table_a <= Z.of_nat f -> capacity table_a4 <= Z.of_nat f' ->
        exists v, hashtable_get f table_a k = Done v
                  /\ hashtable_get f' table_a4 k = Done v).
Proof.
  apply (growth_keeps_contents table_a table_a4).
  - wf_table_a.
  - apply (grown_step 4 table_a [] table_a4 [] table_a4).
    + reflexivity.
    + apply grown_refl.
Defined.

(** ** C8: the capacity cannot double *)

(** C8. When twice the capacity of a table does not fit a [size_t],
    [hashtable_expand] returns [false] without a memory request and without
    touching the table; a [hashtable_set] that needs the growth returns
    [NULL] and leaves the table and the allocator as they were. *)
Theorem growth_overflow_reported ndebug fuel t k v h :
  0 <= capacity t < 2 ^ 64 -> 2 ^ 64 <= 2 * capacity t ->
  hashtable_expand fuel t h = Done ((false, t), h)
  /\ (v <> NULL -> capacity t / 2 <= length t ->
      hashtable_set ndebug fuel t k v h = Done ((None, t), h)).
Proof.
  intros Hc Ho. split; [by apply expand_overflow|].
  intros Hv Hfull. rewrite set_not_null by done.
  destruct (Z.geb_spec (length t) (capacity t / 2)); [|lia].
  by rewrite expand_overflow.
Qed.

Lemma growth_overflow_reported_witness :
  hashtable_expand 0 table_huge [] = Done ((false, table_huge), [])
  /\ (7 <> NULL -> capacity table_huge / 2 <= length table_huge ->
      hashtable_set false 0 table_huge "a" 7 [] = Done ((None, table_huge), [])).
Proof.
  apply (growth_overflow_reported false 0 table_huge "a" 7 []).
  - simpl. lia.
  - simpl. lia.
Defined.

(** ** C9: the hash *)

Lemma lxor_u64 a b :
  0 <= a < 2 ^ 64 -> 0 <= b < 2 ^ 64 -> 0 <= Z.lxor a b < 2 ^ 64.
Proof.
  intros Ha Hb.
  assert (0 <= Z.lxor a b) as Hn by (apply Z.lxor_nonneg; lia).
  split; [done|].
  destruct (Z.eq_dec (Z.lxor a b) 0) as [->|Hne]; [lia|].
  apply Z.log2_lt_pow2; [lia|].
  pose proof (Z.log2_lxor a b (proj1 Ha) (proj1 Hb)) as Hl.
  assert (forall x, 0 <= x < 2 ^ 64 -> Z.log2 x < 64) as Hlog.
  { intros x Hx. destruct (Z.eq_dec x 0) as [->|Hx0]; [done|].
    apply Z.log2_lt_pow2; lia. }
  pose proof (Hlog a Ha). pose proof (Hlog b Hb). lia.
Qed.

Lemma hash_key_loop_fold h p :
  0 <= h < 2 ^ 64 ->
  hash_key_loop h p
  = fold_left (fun acc b => (Z.lxor acc b * FNV_PRIME) mod 2 ^ 64)
      (raw_bytes p) h.
Proof.
  revert h. induction p as [|c p IH]; intros h Hh; simpl; [done|].
  destruct (uchar c =? 0); simpl; [done|].
  pose proof (uchar_range c) as Hc.
  rewrite (u64_small (Z.lxor h (uchar c))) by (apply lxor_u64; lia).
  apply IH, u64_range.
Qed.

(** C9. [hash_key] is the 64-bit FNV-1a of the bytes of the key before its
    terminator: from the offset constant, each byte is XORed into the
    accumulator, which is then multiplied by the prime, modulo [2 ^ 64]. The
    result depends on those bytes only, and [hashtable_get] and
    [hashtable_set_entry] both start their probe at the hash ANDed with the
    capacity minus one, a slot of the array. *)
Theorem hash_key_is_fnv1a k :
  hash_key k = fnv1a_64 (raw_bytes k)
  /\ 0 <= hash_key k < 2 ^ 64
  /\ (forall k', raw_bytes k' = raw_bytes k -> hash_key k' = hash_key k)
  /\ (forall fuel t,
        hashtable_get fuel t k
        = get_loop fuel (entries t) (capacity t) k
            (Z.land (hash_key k) (u64 (capacity t - 1))))
  /\ (forall fuel es c v pl,
        hashtable_set_entry fuel es c k v pl
        = set_entry_from fuel es c k v pl
            (Z.land (hash_key k) (u64 (c - 1))))
  /\ (forall c, 1 <= c < 2 ^ 64 ->
        Z.land (hash_key k) (u64 (c - 1)) = Z.land (hash_key k) (c - 1)
        /\ 0 <= Z.land (hash_key k) (c - 1) < c).
Proof.
  assert (forall x, hash_key x = fnv1a_64 (raw_bytes x)) as Hfnv.
  { intros x. apply hash_key_loop_fold. unfold FNV_OFFSET. lia. }
  split; [apply Hfnv|]. split; [apply hash_key_range|].
  split; [intros k' E; by rewrite !Hfnv, E|].
  split; [done|]. split; [done|].
  intros c Hc. pose proof (home_range c k Hc) as Hr. unfold home in Hr.
  rewrite u64_small in * by lia. done.
Qed.

(** ** C7: iteration *)

Lemma next_loop_S n t it :
  next_loop (S n) t it =
  if _index it <? capacity t then
    obind (entry_at (entries t) (_index it)) (fun entry =>
      match key entry with
      | Some k =>
          Done (true, {| it_key := key entry; it_value := value entry;
                         _index := u64 (_index it + 1) |})
      | None =>
          next_loop n t {| it_key := it_key it; it_value := it_value it;
                           _index := u64 (_index it + 1) |}
      end)
  else Done (false, it).
Proof. reflexivity. Qed.

Lemma next_end t it :
  capacity t <= _index it -> hashtable_next t it = Done (false, it).
Proof.
  intros H. unfold hashtable_next.
  destruct (Z.to_nat (capacity t - _index it)); simpl;
    by destruct (Z.ltb_spec (_index it) (capacity t)); [lia|].
Qed.

Lemma next_loop_false n t it it1 :
  next_loop n t it = Done (false, it1) -> capacity t <= _index it1.
Proof.
  revert it. induction n as [|n IH]; intros it H.
  - simpl in H. destruct (Z.ltb_spec (_index it) (capacity t)); [done|].
    by injection H as <-.
  - rewrite next_loop_S in H.
    destruct (Z.ltb_spec (_index it) (capacity t)); [|by injection H as <-].
    destruct (entry_at (entries t) (_index it)) as [e| | |]; simpl in H;
      try done.
    destruct (key e); [done|]. by apply IH in H.
Qed.

Lemma next_step t it (m : nat) e :
  array_ok (entries t) (capacity t) ->
  _index it = Z.of_nat m -> entries t !! m = Some e ->
  hashtable_next t it =
  match key e with
  | Some k =>
      Done (true, {| it_key := Some k; it_value := value e;
                     _index := Z.of_nat (S m) |})
  | None =>
      hashtable_next t {| it_key := it_key it; it_value := it_value it;
                          _index := Z.of_nat (S m) |}
  end.
Proof.
  intros [Hlen Hc] Hi He. pose proof (lookup_lt_Some _ _ _ He) as Hm.
  unfold hashtable_next. simpl. rewrite Hi.
  replace (Z.to_nat (capacity t - Z.of_nat m))
    with (S (Z.to_nat (capacity t - Z.of_nat (S m)))) by lia.
  rewrite next_loop_S, Hi.
  destruct (Z.ltb_spec (Z.of_nat m) (capacity t)); [|lia].
  unfold entry_at. rewrite Nat2Z.id, He. simpl.
  rewrite u64_small by lia.
  replace (Z.of_nat m + 1) with (Z.of_nat (S m)) by lia.
  by destruct (key e).
Qed.

Lemma drain_spec t :
  array_ok (entries t) (capacity t) ->
  forall (d m : nat) it n,
    (d + m = Datatypes.length (entries t))%nat ->
    _index it = Z.of_nat m ->
    (occupied (drop m (entries t)) < n)%nat ->
    exists it',
      drain n t it = Done (pairs (drop m (entries t)), it')
      /\ capacity t <= _index it'.
Proof.
  intros Ha. pose proof Ha as [Hlen Hc].
  induction d as [|d IH]; intros m it n Hd Hi Hn.
  - simpl in Hd. subst m. rewrite drop_all in *.
    destruct n as [|n]; [simpl in Hn; lia|]. simpl.
    rewrite next_end by lia. simpl. exists it. split; [done|lia].
  - destruct (lookup_lt_is_Some_2 (entries t) m) as [e He]; [lia|].
    rewrite (drop_S _ _ _ He) in *. simpl in Hn |- *.
    destruct n as [|n]; [lia|]. simpl drain.
    rewrite (next_step t it m e Ha Hi He).
    destruct (key e) as [k|] eqn:Hk; simpl in Hn |- *.
    + destruct (IH (S m) {| it_key := Some k; it_value := value e;
                            _index := Z.of_nat (S m) |} n)
        as (it' & E & Hend); [lia|done|lia|].
      rewrite E. simpl. by exists it'.
    + destruct (IH (S m) {| it_key := it_key it; it_value := it_value it;
                            _index := Z.of_nat (S m) |} (S n))
        as (it' & E & Hend); [lia|done|lia|].
      simpl drain in E. by exists it'.
Qed.

(** C7. On a table whose array has [capacity] slots and which stays the
    same between the calls, the caller's loop over [hashtable_next], from
    a new iterator, shows the key and value of every occupied slot, once
    each and in slot order, the empty slots skipped, and then gets [false];
    after a [false], every further call returns [false] again and leaves
    the iterator as it is. *)
Theorem iteration_shows_occupied_slots t n :
  array_ok (entries t) (capacity t) ->
  (occupied (entries t) < n)%nat ->
  (exists it',
     drain n t (hashtable_iterator t) = Done (pairs (entries t), it')
     /\ hashtable_next t it' = Done (false, it'))
  /\ (forall it it1,
        hashtable_next t it = Done (false, it1) ->
        hashtable_next t it1 = Done (false, it1)).
Proof.
  intros Ha Hn. split.
  - destruct (drain_spec t Ha (Datatypes.length (entries t)) O
                (hashtable_iterator t) n) as (it' & E & Hend);
      [lia|done|by rewrite drop_0|].
    rewrite drop_0 in E. exists it'. split; [done|by apply next_end].
  - intros it it1 H. apply next_end. by eapply next_loop_false.
Qed.

Lemma iteration_shows_occupied_slots_witness :
  (exists it',
     drain 4 table_abc (hashtable_iterator table_abc)
     = Done ([(Some "c"%string, 11); (Some "a"%string, 7);
              (Some "b"%string, 9)], it')
     /\ hashtable_next table_abc it' = Done (false, it'))
  /\ (forall it it1,
        hashtable_next table_abc it = Done (false, it1) ->
        hashtable_next table_abc it1 = Done (false, it1)).
Proof.
  apply (iteration_shows_occupied_slots table_abc 4).
  - split; [reflexivity|simpl; lia].
  - simpl. lia.
Defined.

(** ** C10: the probes end *)

(** C10. In a table satisfying the invariant (so with an empty slot), from
    any slot, the probe loops of [hashtable_get] and of
    [hashtable_set_entry] end within [capacity] inspected slots, on a slot
    of the array; [hashtable_get] and [hashtable_set_entry] return. *)
Theorem probes_terminate fuel t k i :
  wf t -> 0 <= i < capacity t -> capacity t <= Z.of_nat fuel ->
  (exists v, get_loop fuel (entries t) (capacity t) k i = Done v)
  /\ (exists r, set_entry_loop fuel (entries t) (capacity t) k i = Done r
                /\ 0 <= end_index r < capacity t)
  /\ (exists v, hashtable_get fuel t k = Done v)
  /\ (forall v pl h, exists x,
        hashtable_set_entry fuel (entries t) (capacity t) k v pl h = Done x).
Proof.
  intros Hwf Hi Hf. pose proof Hwf as [[Hlen Hc] _ _ _ _].
  assert (forall i0, 0 <= i0 < capacity t ->
            exists r, set_entry_loop fuel (entries t) (capacity t) k i0 = Done r)
    as Hloop.
  { intros i0 Hi0. apply loop_terminates; [done|by apply wf_room|done|lia]. }
  assert (forall i0, 0 <= i0 < capacity t ->
            exists v, get_loop fuel (entries t) (capacity t) k i0 = Done v)
    as Hget.
  { intros i0 Hi0. destruct (Hloop i0 Hi0) as [r L].
    rewrite get_loop_probe, L. simpl. destruct r as [j|j]; [|eauto].
    destruct (loop_Hit _ _ _ _ _ _ L) as (e & _ & Hj & _).
    unfold entry_at. rewrite Hj. simpl. eauto. }
  split; [by apply Hget|]. split; [|split].
  - destruct (Hloop i Hi) as [r L]. exists r. split; [done|].
    eapply loop_range; [|done..]. lia.
  - apply Hget, home_range, Hc.
  - intros v pl h.
    destruct (Hloop (home (capacity t) k)) as [r L]; [by apply home_range|].
    destruct r as [j|j].
    + destruct (loop_Hit _ _ _ _ _ _ L) as (e & _ & Hj & _).
      rewrite (set_entry_hit _ _ _ _ _ _ _ _ _ L Hj). eauto.
    + destruct pl as [len|].
      * rewrite (set_entry_vacant_copy _ _ _ _ _ _ _ _ L).
        destruct h as [|[] h']; eauto.
      * rewrite (set_entry_vacant_move _ _ _ _ _ _ _ L). eauto.
Qed.

Lemma probes_terminate_witness :
  (exists v, get_loop 2 (entries table_a) (capacity table_a) "b" 0 = Done v)
  /\ (exists r, set_entry_loop 2 (entries table_a) (capacity table_a) "b" 0
                = Done r
                /\ 0 <= end_index r < capacity table_a)
  /\ (exists v, hashtable_get 2 table_a "b" = Done v)
  /\ (forall v pl h, exists x,
        hashtable_set_entry 2 (entries table_a) (capacity table_a) "b" v pl h
        = Done x).
Proof.
  apply (probes_terminate 2 table_a "b" 0).
  - wf_table_a.
  - simpl. lia.
  - simpl. lia.
Defined.

(** ** Further consequences *)

(** X18. On a reachable table, [hashtable_set] with a value other than
    [NULL] returns, given fuel for a full turn of the doubled array: no
    read outside the slot array, no endless probe, growth included. *)
Lemma hashtable_set_returns ndebug fuel t k v h :
  reachable t -> v <> NULL -> 2 * capacity t <= Z.of_nat fuel ->
  exists r t' h', hashtable_set ndebug fuel t k v h = Done ((r, t'), h').
Proof.
  intros Hr Hv Hf.
  destruct (set_spec ndebug fuel t k v h (reachable_wf _ Hr) Hv Hf)
    as (r & t' & h' & E & _).
  by exists r, t', h'.
Qed.

(** X19. In a table satisfying the invariant, whose capacity is a power
    of two, the slot a probe starts from, the hash ANDed with the capacity
    minus one, is the hash modulo the capacity. *)
Lemma home_mod t k :
  wf t -> home (capacity t) k = hash_key k mod capacity t.
Proof.
  intros [[_ Hc] [n Hn] _ _ _]. unfold home.
  rewrite u64_small by lia. rewrite Hn.
  rewrite <- Z.land_ones by lia. f_equal. rewrite Z.ones_equiv. lia.
Qed.

(** A new table holds no key. *)
Lemma get_fresh fuel h t h' k :
  hashtable_create h = Done (Some t, h') -> (0 < fuel)%nat ->
  hashtable_get fuel t k = Done NULL.
Proof.
  intros H Hf. pose proof (wf_create _ _ _ H) as Hwf.
  assert (t = fresh_table) as ->.
  { unfold hashtable_create, bind, calloc, alloc, ret in H.
    destruct h as [|[] [|[] h]]; simpl in H; by injection H. }
  apply get_absent; [done| |simpl; lia].
  intros v. apply (holds_replicate 1).
Qed.

(** [pairs] keeps the occupied slots, in their order. *)
Lemma pairs_filter es :
  pairs es
  = (fun e => (key e, value e))
      <$> List.filter (fun e => is_Some_b (key e)) es.
Proof.
  induction es as [|e es IH]; simpl; [done|].
  destruct (key e) eqn:Hk; simpl; by rewrite IH, ?Hk.
Qed.

(** The scenario of the specification: ["id"], ["name"], then ["id"]
    again. *)
Example scenario :
  let run :=
    let* t := hashtable_create in
    match t with
    | None => ret None
    | Some t =>
        let* r1 := hashtable_set false 8 t "id" 1 in
        let* r2 := hashtable_set false 8 (snd r1) "name" 2 in
        let* r3 := hashtable_set false 8 (snd r2) "id" 3 in
        let t := snd r3 in
        ret (Some (hashtable_length t, hashtable_get 8 t "id",
                   hashtable_get 8 t "name", hashtable_get 8 t "missing"))
    end in
  run [] = Done (Some (2, Done 3, Done 2, Done NULL), []).
Proof. vm_compute. reflexivity. Qed.

(** * Further properties of the code *)

(** ** The ways [hashtable_set] can go *)

Lemma create_fresh h t h' :
  hashtable_create h = Done (Some t, h') -> t = fresh_table.
Proof.
  unfold hashtable_create, bind, calloc, alloc, ret.
  destruct h as [|[] [|[] h]]; simpl; intros H; by injection H.
Qed.

Lemma set_entry_Done fuel es c k v pl h x :
  hashtable_set_entry fuel es c k v pl h = Done x ->
  exists r, set_entry_loop fuel es c k (home c k) = Done r.
Proof.
  unfold hashtable_set_entry, set_entry_from, bind, lift. fold (home c k).
  destruct (set_entry_loop fuel es c k (home c k)) as [r| | |]; simpl;
    [eauto|done..].
Qed.

Lemma set_tail_cases fuel t k v h r t' h' :
  set_tail fuel t k v h = Done ((r, t'), h') ->
  (exists j e kk,
     set_entry_loop fuel (entries t) (capacity t) k (home (capacity t) k)
     = Done (Hit j)
     /\ entries t !! Z.to_nat j = Some e /\ key e = Some kk
     /\ r = Some kk /\ h' = h
     /\ t' = {| entries := <[Z.to_nat j := {| key := key e; value := v |}]>
                             (entries t);
                capacity := capacity t; length := length t |})
  \/ (exists j,
        set_entry_loop fuel (entries t) (capacity t) k (home (capacity t) k)
        = Done (Vacant j)
        /\ ((h = false :: h' /\ r = None /\ t' = t)
            \/ (head h <> Some false /\ h' = tail h /\ r = Some (c_str k)
                /\ t' = {| entries :=
                             <[Z.to_nat j := {| key := Some (c_str k);
                                                value := v |}]> (entries t);
                           capacity := capacity t;
                           length := u64 (length t + 1) |}))).
Proof.
  unfold set_tail, bind. intros H.
  destruct (hashtable_set_entry fuel (entries t) (capacity t) k v
              (Some (length t)) h) as [x| | |] eqn:E; simpl in H; try done.
  destruct (set_entry_Done _ _ _ _ _ _ _ _ E) as [[j|j] L].
  - left. destruct (loop_Hit _ _ _ _ _ _ L) as (e & kk & Hj & Hk & _).
    rewrite (set_entry_hit _ _ _ _ _ _ _ _ _ L Hj) in E.
    injection E as <-. simpl in H. injection H as <- <- <-.
    by exists j, e, kk.
  - right. exists j. split; [done|].
    rewrite (set_entry_vacant_copy _ _ _ _ _ _ _ _ L) in E.
    destruct h as [|[] h0]; injection E as <-; simpl in H;
      injection H as <- <- <-.
    + right. by repeat split.
    + right. by repeat split.
    + left. repeat split. by destruct t.
Qed.

Lemma expand_false fuel t h t1 h1 :
  hashtable_expand fuel t h = Done ((false, t1), h1) -> t1 = t.
Proof.
  unfold hashtable_expand.
  destruct (u64 (capacity t * 2) <? capacity t); [by intros [= <- _]|].
  unfold bind, calloc, alloc, ret.
  destruct h as [|[] h0]; simpl; try by intros [= <- _].
  - by destruct (expand_loop fuel t _ 0 _ _ []).
  - by destruct (expand_loop fuel t _ 0 _ _ h0).
Qed.

Lemma set_cases ndebug fuel t k v h r t' h' :
  v <> NULL ->
  hashtable_set ndebug fuel t k v h = Done ((r, t'), h') ->
  (length t < capacity t / 2
   /\ set_tail fuel t k v h = Done ((r, t'), h'))
  \/ (capacity t / 2 <= length t /\ r = None /\ t' = t
      /\ hashtable_expand fuel t h = Done ((false, t), h'))
  \/ (capacity t / 2 <= length t
      /\ exists t1 h1,
           hashtable_expand fuel t h = Done ((true, t1), h1)
           /\ set_tail fuel t1 k v h1 = Done ((r, t'), h')).
Proof.
  intros Hv. rewrite set_not_null by done.
  destruct (Z.geb_spec (length t) (capacity t / 2)) as [Hfull|Hroom];
    [|left; split; [lia|done]].
  intros H. right.
  destruct (hashtable_expand fuel t h) as [[[[] t1] h1]| | |] eqn:E;
    simpl in H; try done.
  - right. split; [done|]. by exists t1, h1.
  - left. injection H as <- <- <-.
    pose proof (expand_false _ _ _ _ _ E) as ->. done.
Qed.

(** ** Other keys are left alone *)

Lemma place_hit_other es (j : nat) e k k' k2 v v2 :
  es !! j = Some e -> key e = Some k' -> same_key k k' -> ~ same_key k k2 ->
  holds (<[j := {| key := key e; value := v |}]> es) k2 v2 <-> holds es k2 v2.
Proof.
  intros Hj Hk Hs Hne.
  pose proof (lookup_lt_Some _ _ _ Hj) as Hlt.
  assert (~ same_key k2 k') as Hne'.
  { intros H2. apply Hne. eapply same_key_trans; [done|by apply same_key_sym]. }
  split; intros (j2 & e2 & k3 & Hj2 & Hk3 & Hs3 & Hv).
  - destruct (decide (j2 = j)) as [->|Hjj].
    + rewrite list_lookup_insert_eq in Hj2 by done. injection Hj2 as <-.
      simpl in Hk3. rewrite Hk in Hk3. injection Hk3 as <-. done.
    + rewrite list_lookup_insert_ne in Hj2 by done. by exists j2, e2, k3.
  - destruct (decide (j2 = j)) as [->|Hjj].
    + rewrite Hj in Hj2. injection Hj2 as <-.
      rewrite Hk in Hk3. injection Hk3 as <-. done.
    + exists j2, e2, k3. by rewrite list_lookup_insert_ne.
Qed.

Lemma set_tail_frame fuel t k v h r t' h' k2 v2 :
  wf t -> set_tail fuel t k v h = Done ((r, t'), h') ->
  ~ same_key k k2 ->
  holds (entries t') k2 v2 <-> holds (entries t) k2 v2.
Proof.
  intros Hwf H Hne.
  destruct (set_tail_cases _ _ _ _ _ _ _ _ H)
    as [(j & e & kk & L & Hj & Hk & -> & -> & ->)
       |(j & L & [(-> & -> & ->)|(Hh & -> & -> & ->)])]; simpl; [| done |].
  - destruct (loop_Hit _ _ _ _ _ _ L) as (e' & kk' & Hj' & Hk' & Hs).
    rewrite Hj in Hj'. injection Hj' as <-. by eapply place_hit_other.
  - destruct (place_vacant _ _ _ _ (c_str k) v _ (wf_array _ Hwf)
                (wf_chain _ Hwf) L (same_key_c_str k)) as (_ & _ & _ & Hh').
    rewrite Hh'. split; [|by left]. intros [?|[Hs _]]; [done|].
    exfalso. apply Hne. apply same_key_sym.
    eapply same_key_trans; [done|]. apply same_key_sym, same_key_c_str.
Qed.

Lemma set_frame ndebug fuel t k v h r t' h' k2 v2 :
  wf t -> v <> NULL ->
  hashtable_set ndebug fuel t k v h = Done ((r, t'), h') ->
  ~ same_key k k2 ->
  holds (entries t') k2 v2 <-> holds (entries t) k2 v2.
Proof.
  intros Hwf Hv H Hne.
  destruct (set_cases _ _ _ _ _ _ _ _ _ Hv H)
    as [[_ Ht]|[(_ & _ & -> & _)|(_ & t1 & h1 & E & Ht)]]; [|done|].
  - by eapply set_tail_frame.
  - destruct (expand_sound _ _ _ _ _ Hwf E) as (Hwf1 & _ & _ & Hh1).
    rewrite <- Hh1. by eapply set_tail_frame.
Qed.

(** ** Stored keys and values *)

Lemma set_entry_slot_ok fuel es c k v pl h r es' pl' h' :
  hashtable_set_entry fuel es c k v pl h = Done ((r, es', pl'), h') ->
  Forall slot_ok es -> v <> NULL -> (pl = None -> c_str k = k) ->
  Forall slot_ok es'.
Proof.
  intros E Hes Hv Hk.
  destruct (set_entry_Done _ _ _ _ _ _ _ _ E) as [[j|j] L].
  - destruct (loop_Hit _ _ _ _ _ _ L) as (e & kk & Hj & Hkk & _).
    rewrite (set_entry_hit _ _ _ _ _ _ _ _ _ L Hj) in E.
    injection E as _ <- _ _. apply Forall_insert; [done|].
    pose proof (Forall_lookup_1 _ _ _ _ Hes Hj) as He.
    unfold slot_ok in *. simpl. rewrite Hkk in *. by destruct He.
  - destruct pl as [len|].
    + rewrite (set_entry_vacant_copy _ _ _ _ _ _ _ _ L) in E.
      destruct h as [|[] h0]; injection E as _ <- _ _; try done;
        (apply Forall_insert; [done|]); unfold slot_ok; simpl;
        by rewrite c_str_idem.
    + rewrite (set_entry_vacant_move _ _ _ _ _ _ _ L) in E.
      injection E as _ <- _ _. apply Forall_insert; [done|].
      unfold slot_ok. simpl. split; [by apply Hk|done].
Qed.

Lemma expand_loop_slot_ok fuel t c2 n :
  Forall slot_ok (entries t) ->
  forall i new h new' h',
    Forall slot_ok new ->
    expand_loop fuel t n i new c2 h = Done (new', h') ->
    Forall slot_ok new'.
Proof.
  intros Hold. induction n as [|n IH]; intros i new h new' h' Hnew H.
  - by injection H as <- _.
  - destruct (entries t !! Z.to_nat i) as [e|] eqn:He.
    + rewrite (expand_loop_S _ _ _ _ _ _ _ _ He) in H.
      pose proof (Forall_lookup_1 _ _ _ _ Hold He) as Hok.
      destruct (key e) as [k|] eqn:Hk; [|by eapply IH].
      destruct (hashtable_set_entry fuel new c2 k (value e) None h)
        as [[[[r es1] pl1] h1]| | |] eqn:E; simpl in H; try done.
      unfold slot_ok in Hok. rewrite Hk in Hok. destruct Hok as [Hc Hv].
      eapply IH; [|done]. by eapply set_entry_slot_ok.
    + simpl in H. unfold bind, lift, entry_at in H. by rewrite He in H.
Qed.

Lemma slot_ok_replicate n : Forall slot_ok (replicate n zero_entry).
Proof. by apply Forall_replicate. Qed.

Lemma expand_slot_ok fuel t h b t1 h1 :
  hashtable_expand fuel t h = Done ((b, t1), h1) ->
  Forall slot_ok (entries t) -> Forall slot_ok (entries t1).
Proof.
  unfold hashtable_expand. intros H Hok.
  destruct (u64 (capacity t * 2) <? capacity t); [by injection H as _ <- _|].
  unfold bind, calloc, alloc, ret in H.
  destruct h as [|[] h0]; simpl in H; try by injection H as _ <- _.
  - destruct (expand_loop fuel t _ 0 _ _ []) as [[new' h']| | |] eqn:E;
      simpl in H; try done. injection H as _ <- _. simpl.
    eapply expand_loop_slot_ok; [done| |done]. apply slot_ok_replicate.
  - destruct (expand_loop fuel t _ 0 _ _ h0) as [[new' h']| | |] eqn:E;
      simpl in H; try done. injection H as _ <- _. simpl.
    eapply expand_loop_slot_ok; [done| |done]. apply slot_ok_replicate.
Qed.

Lemma set_tail_slot_ok fuel t k v h r t' h' :
  set_tail fuel t k v h = Done ((r, t'), h') ->
  Forall slot_ok (entries t) -> v <> NULL -> Forall slot_ok (entries t').
Proof.
  unfold set_tail, bind. intros H Hok Hv.
  destruct (hashtable_set_entry fuel (entries t) (capacity t) k v
              (Some (length t)) h) as [[[[r1 es1] pl1] h1]| | |] eqn:E;
    simpl in H; try done.
  injection H as _ <- _. simpl. by eapply set_entry_slot_ok.
Qed.

Lemma set_slot_ok ndebug fuel t k v h r t' h' :
  hashtable_set ndebug fuel t k v h = Done ((r, t'), h') ->
  Forall slot_ok (entries t) -> Forall slot_ok (entries t').
Proof.
  intros H Hok. destruct (decide (v = NULL)) as [->|Hv].
  - rewrite set_null in H. destruct ndebug; [|done]. by injection H as _ <- _.
  - destruct (set_cases _ _ _ _ _ _ _ _ _ Hv H)
      as [[_ Ht]|[(_ & _ & -> & _)|(_ & t1 & h1 & E & Ht)]]; [|done|].
    + by eapply set_tail_slot_ok.
    + eapply set_tail_slot_ok; [done| |done]. by eapply expand_slot_ok.
Qed.

Lemma reachable_slot_ok t : reachable t -> Forall slot_ok (entries t).
Proof.
  induction 1 as [h t h' H|ndebug fuel t k v h r t' h' _ IH H].
  - apply create_fresh in H as ->. apply (slot_ok_replicate 1).
  - by eapply set_slot_ok.
Qed.

Lemma holds_not_null es k v : Forall slot_ok es -> holds es k v -> v <> NULL.
Proof.
  intros Hok (j & e & k' & Hj & Hk & _ & <-).
  pose proof (Forall_lookup_1 _ _ _ _ Hok Hj) as He.
  unfold slot_ok in He. rewrite Hk in He. by destruct He.
Qed.

Lemma get_Done_holds f t k v :
  hashtable_get f t k = Done v -> v <> NULL -> holds (entries t) k v.
Proof.
  unfold hashtable_get. rewrite get_loop_probe. fold (home (capacity t) k).
  destruct (set_entry_loop f (entries t) (capacity t) k _)
    as [[j|j]| | |] eqn:L; simpl; try done.
  - destruct (hit_holds _ _ _ _ _ _ L) as (e & Hj & He).
    unfold entry_at. rewrite Hj. simpl. by intros [= <-].
  - by intros [= <-].
Qed.

Lemma elem_pairs es k v :
  (Some k, v) ∈ pairs es <->
  exists (j : nat) e, es !! j = Some e /\ key e = Some k /\ value e = v.
Proof.
  induction es as [|e es IH]; simpl.
  - split; [by intros ?%elem_of_nil|]. by intros (j & e & Hj & _).
  - destruct (key e) as [k0|] eqn:Hk.
    + rewrite elem_of_cons, IH. split.
      * intros [[= -> ->]|(j & e' & Hj & Hk' & Hv)].
        -- by exists O, e.
        -- by exists (S j), e'.
      * intros ([|j] & e' & Hj & Hk' & Hv); simpl in Hj.
        -- injection Hj as <-. left. congruence.
        -- right. by exists j, e'.
    + rewrite IH. split.
      * intros (j & e' & Hj & Hk' & Hv). by exists (S j), e'.
      * intros ([|j] & e' & Hj & Hk' & Hv); simpl in Hj.
        -- injection Hj as <-. congruence.
        -- by exists j, e'.
Qed.


Lemma pairs_length es : Datatypes.length (pairs es) = occupied es.
Proof.
  induction es as [|e es IH]; simpl; [done|].
  destruct (key e); simpl; by rewrite IH.
Qed.


Lemma set_success_not_null ndebug fuel t k v h kk t' h' :
  hashtable_set ndebug fuel t k v h = Done ((Some kk, t'), h') -> v <> NULL.
Proof.
  intros H ->. rewrite set_null in H. by destruct ndebug.
Qed.

Lemma set_tail_key fuel t k v h kk t' h' :
  Forall slot_ok (entries t) ->
  set_tail fuel t k v h = Done ((Some kk, t'), h') -> kk = c_str k.
Proof.
  intros Hok H.
  destruct (set_tail_cases _ _ _ _ _ _ _ _ H)
    as [(j & e & kk' & L & Hj & Hk & [= <-] & _)
       |(j & L & [(_ & ? & _)|(_ & _ & [= <-] & _)])]; try done.
  destruct (loop_Hit _ _ _ _ _ _ L) as (e' & k' & Hj' & Hk' & Hs).
  rewrite Hj in Hj'. injection Hj' as <-. rewrite Hk in Hk'.
  injection Hk' as <-.
  pose proof (Forall_lookup_1 _ _ _ _ Hok Hj) as He.
  unfold slot_ok in He. rewrite Hk in He. destruct He as [Hc _].
  unfold same_key in Hs. congruence.
Qed.

Local Ltac reach_table_a :=
  apply (reach_set false 2 fresh_table "a" 7 [] (Some "a"%string) table_a []);
  [by apply (reach_create [] fresh_table []) | reflexivity].

(** ** X1: a new table *)

(** X1. The table [hashtable_create] returns is empty: its length is 0,
    [hashtable_get] returns [NULL] for every key, and iteration ends at
    once without an item. *)
Theorem new_table_is_empty h t h' :
  hashtable_create h = Done (Some t, h') ->
  hashtable_length t = 0
  /\ (forall k fuel, (0 < fuel)%nat -> hashtable_get fuel t k = Done NULL)
  /\ (exists it', drain 1 t (hashtable_iterator t) = Done ([], it')).
Proof.
  intros H. pose proof (create_fresh _ _ _ H) as Ht.
  split; [by subst t|]. split.
  - intros k fuel Hf. by eapply get_fresh.
  - subst t. by eexists.
Qed.

Lemma new_table_is_empty_witness :
  hashtable_length fresh_table = 0
  /\ (forall k fuel, (0 < fuel)%nat ->
        hashtable_get fuel fresh_table k = Done NULL)
  /\ (exists it',
        drain 1 fresh_table (hashtable_iterator fresh_table) = Done ([], it')).
Proof.
  apply (new_table_is_empty [] fresh_table []). reflexivity.
Defined.

(** ** X2: the other keys *)

(** X2. A call of [hashtable_set] that returns, with a key or with [NULL],
    changes the answer of [hashtable_get] for no key whose C string differs
    from the one it was given. *)
Theorem set_keeps_other_keys ndebug fuel f f' t k v h r t' h' k2 :
  wf t ->
  hashtable_set ndebug fuel t k v h = Done ((r, t'), h') ->
  ~ same_key k k2 ->
  capacity t <= Z.of_nat f -> capacity t' <= Z.of_nat f' ->
  hashtable_get f' t' k2 = hashtable_get f t k2.
Proof.
  intros Hwf H Hne Hf Hf'.
  assert (wf t' /\ forall v2, holds (entries t') k2 v2
                              <-> holds (entries t) k2 v2) as [Hwf' Hh].
  { destruct (decide (v = NULL)) as [->|Hv].
    - rewrite set_null in H. destruct ndebug; [|done].
      by injection H as _ <- _.
    - split; [by destruct (set_sound _ _ _ _ _ _ _ _ _ Hwf Hv H)|].
      intros v2. by eapply set_frame. }
  apply (get_same_contents f f' t t' k2 Hwf Hwf' Hh).
  - destruct Hwf as [[Hl _] _ _ _ _]. lia.
  - destruct Hwf' as [[Hl _] _ _ _ _]. lia.
Qed.

Lemma set_keeps_other_keys_witness :
  hashtable_get 2 table_a "b" = hashtable_get 1 fresh_table "b".
Proof.
  apply (set_keeps_other_keys false 2 1 2 fresh_table "a" 7 []
           (Some "a"%string) table_a []).
  - wf_fresh.
  - reflexivity.
  - discriminate.
  - simpl. lia.
  - simpl. lia.
Defined.

(** ** X3: the length counts the keys *)

(** X3. On a reachable table, a successful [hashtable_set] adds one to the
    length when [hashtable_get] returned [NULL] for the key before the
    call, and leaves the length as it was otherwise. *)
Theorem set_counts_new_keys ndebug fuel f t k v h kk t' h' :
  reachable t ->
  hashtable_set ndebug fuel t k v h = Done ((Some kk, t'), h') ->
  capacity t <= Z.of_nat f ->
  exists old,
    hashtable_get f t k = Done old
    /\ hashtable_length t'
       = hashtable_length t + (if old =? NULL then 1 else 0).
Proof.
  intros Hr H Hf. pose proof (reachable_wf _ Hr) as Hwf.
  pose proof (reachable_slot_ok _ Hr) as Hok.
  pose proof (set_success_not_null _ _ _ _ _ _ _ _ _ H) as Hv.
  destruct (set_sound _ _ _ _ _ _ _ _ _ Hwf Hv H)
    as (_ & _ & _ & _ & Hsame & Hnew).
  assert (Datatypes.length (entries t) <= f)%nat as Hlen
    by (destruct Hwf as [[Hl _] _ _ _ _]; lia).
  destruct (get_same_contents f f t t k Hwf Hwf) as [_ [old Hold]];
    [done..|].
  exists old. split; [done|]. unfold hashtable_length.
  destruct (Z.eqb_spec old NULL) as [->|Hne].
  - apply Hnew. intros v0 H0.
    rewrite (get_holds f t k v0) in Hold by (done || apply Hwf).
    injection Hold as ->. by eapply holds_not_null.
  - rewrite Z.add_0_r. apply Hsame. exists old. by apply (get_Done_holds f).
Qed.

Lemma set_counts_new_keys_witness :
  exists old,
    hashtable_get 1 fresh_table "a" = Done old
    /\ hashtable_length table_a
       = hashtable_length fresh_table + (if old =? NULL then 1 else 0).
Proof.
  apply (set_counts_new_keys false 2 1 fresh_table "a" 7 [] "a"%string
           table_a []).
  - by apply (reach_create [] fresh_table []).
  - reflexivity.
  - simpl. lia.
Defined.

(** ** X4, X5, X6: lookup and iteration *)



(** X5. On a reachable table, the caller's loop over [hashtable_next],
    from a new iterator, ends after showing exactly as many items as
    [hashtable_length] returns. *)
Theorem iteration_yields_length_items t n :
  reachable t -> (Z.to_nat (hashtable_length t) < n)%nat ->
  exists items it',
    drain n t (hashtable_iterator t) = Done (items, it')
    /\ Z.of_nat (Datatypes.length items) = hashtable_length t.
Proof.
  intros Hwf%reachable_wf Hn. unfold hashtable_length in *.
  pose proof (wf_count _ Hwf) as Hc.
  destruct (drain_spec t (wf_array _ Hwf) (Datatypes.length (entries t)) O
              (hashtable_iterator t) n) as (it' & E & _);
    [lia|done|rewrite drop_0; lia|].
  rewrite drop_0 in E. exists (pairs (entries t)), it'.
  split; [done|]. rewrite pairs_length. lia.
Qed.

Lemma iteration_yields_length_items_witness :
  exists items it',
    drain 2 table_a (hashtable_iterator table_a) = Done (items, it')
    /\ Z.of_nat (Datatypes.length items) = hashtable_length table_a.
Proof.
  apply (iteration_yields_length_items table_a 2).
  - reach_table_a.
  - simpl. lia.
Defined.


Local Ltac wf_table_abc :=
  constructor; simpl;
  [ split; [reflexivity | lia]
  | exists 3%nat; reflexivity
  | reflexivity
  | vm_compute; discriminate
  | intros [|[|[|[|[|[|[|[|j]]]]]]]] e k Hj Hk; simpl in Hj;
    try discriminate Hj; injection Hj as <-; simpl in Hk;
    try discriminate Hk; injection Hk as <-; vm_compute; reflexivity ].


(** ** X7 - X11: memory and growth *)

Lemma expand_loop_heap fuel t c2 n :
  forall i new h new' h',
    expand_loop fuel t n i new c2 h = Done (new', h') -> h' = h.
Proof.
  induction n as [|n IH]; intros i new h new' h' H.
  - by injection H as _ <-.
  - destruct (entries t !! Z.to_nat i) as [e|] eqn:He.
    + rewrite (expand_loop_S _ _ _ _ _ _ _ _ He) in H.
      destruct (key e) as [k|]; [|by eapply IH].
      destruct (hashtable_set_entry fuel new c2 k (value e) None h)
        as [[[[r es1] pl1] h1]| | |] eqn:E; simpl in H; try done.
      apply IH in H as ->.
      destruct (set_entry_Done _ _ _ _ _ _ _ _ E) as [[j|j] L].
      * destruct (loop_Hit _ _ _ _ _ _ L) as (e' & kk & Hj & _).
        rewrite (set_entry_hit _ _ _ _ _ _ _ _ _ L Hj) in E.
        by injection E as _ _ _ <-.
      * rewrite (set_entry_vacant_move _ _ _ _ _ _ _ L) in E.
        by injection E as _ _ _ <-.
    + simpl in H. unfold bind, lift, entry_at in H. by rewrite He in H.
Qed.

Lemma expand_true_heap fuel t h t1 h1 :
  hashtable_expand fuel t h = Done ((true, t1), h1) ->
  head h <> Some false /\ h1 = tail h.
Proof.
  unfold hashtable_expand.
  destruct (u64 (capacity t * 2) <? capacity t); [done|].
  unfold bind, calloc, alloc, ret.
  destruct h as [|[] h0]; simpl; try done.
  - destruct (expand_loop fuel t _ 0 _ _ []) as [[new' h']| | |] eqn:E;
      simpl; try done.
    apply expand_loop_heap in E as ->. by intros [= _ <-].
  - destruct (expand_loop fuel t _ 0 _ _ h0) as [[new' h']| | |] eqn:E;
      simpl; try done.
    apply expand_loop_heap in E as ->. by intros [= _ <-].
Qed.

Lemma set_tail_capacity fuel t k v h r t' h' :
  set_tail fuel t k v h = Done ((r, t'), h') -> capacity t' = capacity t.
Proof.
  intros H.
  by destruct (set_tail_cases _ _ _ _ _ _ _ _ H)
    as [(j & e & kk & _ & _ & _ & _ & _ & ->)
       |(j & _ & [(_ & _ & ->)|(_ & _ & _ & ->)])].
Qed.

(** X7. Replacing the value of a key that is present, in a table that is
    less than half full, asks for no memory: whatever the allocator would
    answer, [hashtable_set] succeeds and leaves the allocator untouched,
    the capacity and the length as they were. *)
Theorem overwrite_needs_no_memory ndebug fuel f t k v v0 h :
  wf t -> v <> NULL ->
  length t < capacity t / 2 ->
  hashtable_get f t k = Done v0 -> v0 <> NULL ->
  capacity t <= Z.of_nat fuel ->
  exists kk t',
    hashtable_set ndebug fuel t k v h = Done ((Some kk, t'), h)
    /\ capacity t' = capacity t
    /\ hashtable_length t' = hashtable_length t.
Proof.
  intros Hwf Hv Hroom Hget Hv0 Hf.
  pose proof Hwf as [[Hlen Hc] _ _ _ Hch].
  apply get_Done_holds in Hget; [|done].
  destruct (chain_hit _ _ _ _ Hch Hget) as (j & e & L & Hj & _).
  apply (loop_mono _ fuel) in L; [|lia].
  destruct (loop_Hit _ _ _ _ _ _ L) as (e' & kk & Hj' & Hk & _).
  rewrite Nat2Z.id, Hj in Hj'. injection Hj' as <-.
  rewrite set_not_null by done.
  destruct (Z.geb_spec (length t) (capacity t / 2)); [lia|].
  unfold set_tail, bind.
  rewrite (set_entry_hit _ _ _ _ _ _ _ _ e L) by (by rewrite Nat2Z.id).
  simpl. rewrite Hk. by eexists _, _.
Qed.

Lemma overwrite_needs_no_memory_witness :
  exists kk t',
    hashtable_set false 4 table_a4 "a" 9 [false; false]
    = Done ((Some kk, t'), [false; false])
    /\ capacity t' = capacity table_a4
    /\ hashtable_length t' = hashtable_length table_a4.
Proof.
  apply (overwrite_needs_no_memory false 4 4 table_a4 "a" 9 7 [false; false]).
  - constructor; simpl;
      [ split; [reflexivity | lia]
      | exists 2%nat; reflexivity
      | reflexivity
      | vm_compute; discriminate
      | intros [|[|[|[|j]]]] e k Hj Hk; simpl in Hj;
        try discriminate Hj; injection Hj as <-; simpl in Hk;
        try discriminate Hk; injection Hk as <-; vm_compute; reflexivity ].
  - discriminate.
  - vm_compute. reflexivity.
  - reflexivity.
  - discriminate.
  - simpl. lia.
Defined.

(** X8. A successful [hashtable_set] doubles the capacity exactly when
    the length had reached half the capacity before the call, also when
    the key was already present, and leaves it as it was otherwise. *)
Theorem set_doubles_when_half_full ndebug fuel t k v h kk t' h' :
  wf t ->
  hashtable_set ndebug fuel t k v h = Done ((Some kk, t'), h') ->
  capacity t'
  = if length t >=? capacity t / 2 then 2 * capacity t else capacity t.
Proof.
  intros Hwf H.
  pose proof (set_success_not_null _ _ _ _ _ _ _ _ _ H) as Hv.
  destruct (set_cases _ _ _ _ _ _ _ _ _ Hv H)
    as [[Hroom Ht]|[(_ & ? & _)|(Hfull & t1 & h1 & E & Ht)]]; [|done|].
  - destruct (Z.geb_spec (length t) (capacity t / 2)); [lia|].
    by eapply set_tail_capacity.
  - destruct (Z.geb_spec (length t) (capacity t / 2)); [|lia].
    destruct (expand_sound _ _ _ _ _ Hwf E) as (_ & <- & _).
    by eapply set_tail_capacity.
Qed.

Lemma set_doubles_when_half_full_witness :
  capacity table_a9
  = if length table_a >=? capacity table_a / 2
    then 2 * capacity table_a else capacity table_a.
Proof.
  apply (set_doubles_when_half_full false 4 table_a "a" 9 [] "a"%string
           table_a9 []).
  - wf_table_a.
  - reflexivity.
Defined.

(** X9. On a reachable table, the key a successful [hashtable_set]
    returns is the table's own copy: it is the bytes of the given key
    before its terminator, and iteration over the table left shows this
    very key with the value given. *)
Theorem set_returns_stored_copy ndebug fuel t k v h kk t' h' :
  reachable t ->
  hashtable_set ndebug fuel t k v h = Done ((Some kk, t'), h') ->
  kk = c_str k /\ (Some kk, v) ∈ pairs (entries t').
Proof.
  intros Hr H. pose proof (reachable_wf _ Hr) as Hwf.
  pose proof (reachable_slot_ok _ Hr) as Hok.
  pose proof (set_success_not_null _ _ _ _ _ _ _ _ _ H) as Hv.
  assert (kk = c_str k) as ->.
  { destruct (set_cases _ _ _ _ _ _ _ _ _ Hv H)
      as [[_ Ht]|[(_ & ? & _)|(_ & t1 & h1 & E & Ht)]]; [|done|].
    - by eapply set_tail_key.
    - eapply set_tail_key; [|done]. by eapply expand_slot_ok. }
  split; [done|].
  destruct (set_sound _ _ _ _ _ _ _ _ _ Hwf Hv H) as (_ & _ & _ & Hh & _).
  destruct Hh as (j & e & k' & Hj & Hk & Hs & Hval).
  pose proof (set_slot_ok _ _ _ _ _ _ _ _ _ H Hok) as Hok'.
  pose proof (Forall_lookup_1 _ _ _ _ Hok' Hj) as He.
  unfold slot_ok in He. rewrite Hk in He. destruct He as [Hc _].
  apply elem_pairs. exists j, e. split; [done|]. split; [|done].
  unfold same_key in Hs. congruence.
Qed.

Lemma set_returns_stored_copy_witness :
  "a"%string = c_str "a" /\ (Some "a"%string, 7) ∈ pairs (entries table_a).
Proof.
  apply (set_returns_stored_copy false 2 fresh_table "a" 7 [] "a"%string
           table_a []).
  - by apply (reach_create [] fresh_table []).
  - reflexivity.
Defined.

(** X10. On a reachable table whose capacity can still double, a
    [hashtable_set] with a value other than [NULL] succeeds whenever every
    memory request it makes is granted (given fuel for a full turn of the
    doubled array): it returns a key then, never [NULL]. *)
Theorem set_succeeds_with_memory ndebug fuel t k v h :
  reachable t -> v <> NULL ->
  2 * capacity t < 2 ^ 64 -> 2 * capacity t <= Z.of_nat fuel ->
  Forall (fun b => b = true) h ->
  exists kk t' h',
    hashtable_set ndebug fuel t k v h = Done ((Some kk, t'), h').
Proof.
  intros Hr Hv Ho Hf Hh. pose proof (reachable_wf _ Hr) as Hwf.
  destruct (set_spec ndebug fuel t k v h Hwf Hv Hf)
    as ([kk|] & t' & h' & E & _); [by exists kk, t', h'|].
  exfalso.
  assert (head h <> Some false) as Hhead.
  { destruct h as [|[] h0]; try done. by inversion Hh. }
  assert (forall h0, tail h <> false :: h0) as Htail.
  { intros h0 Ht. destruct h as [|b [|b' h1]]; try done.
    injection Ht as -> ->. inversion Hh as [|? ? _ Hh']. by inversion Hh'. }
  destruct (set_cases _ _ _ _ _ _ _ _ _ Hv E)
    as [[_ Ht]|[(_ & _ & -> & Ee)|(_ & t1 & h1 & Ee & Ht)]].
  - destruct (set_tail_cases _ _ _ _ _ _ _ _ Ht)
      as [(j & e & kk & _ & _ & _ & ? & _)
         |(j & _ & [(-> & _)|(_ & _ & ? & _)])]; try done.
  - destruct (expand_grows fuel t h Hwf Ho Hf Hhead) as (t1 & Eg & _).
    by rewrite Eg in Ee.
  - destruct (expand_true_heap _ _ _ _ _ Ee) as [_ ->].
    destruct (set_tail_cases _ _ _ _ _ _ _ _ Ht)
      as [(j & e & kk & _ & _ & _ & ? & _)
         |(j & _ & [(Hbad & _)|(_ & _ & ? & _)])]; try done.
    by apply Htail in Hbad.
Qed.

Lemma set_succeeds_with_memory_witness :
  exists kk t' h',
    hashtable_set false 4 table_a "b" 9 [true; true]
    = Done ((Some kk, t'), h').
Proof.
  apply (set_succeeds_with_memory false 4 table_a "b" 9 [true; true]).
  - reach_table_a.
  - discriminate.
  - simpl. lia.
  - simpl. lia.
  - repeat constructor.
Defined.

(** X11. A [hashtable_set] that fails leaves the table exactly as it was,
    except in one case: the request for the doubled array was granted and
    the very next request, for the copy of the key, was refused; the
    capacity is doubled then. *)
Theorem failed_set_changes_table_only_after_growth
    ndebug fuel t k v h t' h' :
  wf t -> v <> NULL ->
  hashtable_set ndebug fuel t k v h = Done ((None, t'), h') ->
  t' = t
  \/ (h = true :: false :: h' /\ capacity t / 2 <= length t
      /\ capacity t' = 2 * capacity t).
Proof.
  intros Hwf Hv H.
  destruct (set_cases _ _ _ _ _ _ _ _ _ Hv H)
    as [[_ Ht]|[(_ & _ & -> & _)|(Hfull & t1 & h1 & E & Ht)]]; [|by left|].
  - left.
    by destruct (set_tail_cases _ _ _ _ _ _ _ _ Ht)
      as [(j & e & kk & _ & _ & _ & ? & _)
         |(j & _ & [(_ & _ & ->)|(_ & _ & ? & _)])].
  - right. destruct (expand_true_heap _ _ _ _ _ E) as [Hhead ->].
    destruct (expand_sound _ _ _ _ _ Hwf E) as (_ & Hc & _).
    pose proof (set_tail_capacity _ _ _ _ _ _ _ _ Ht) as Hc'.
    destruct (set_tail_cases _ _ _ _ _ _ _ _ Ht)
      as [(j & e & kk & _ & _ & _ & ? & _)
         |(j & _ & [(Hh & _ & _)|(_ & _ & ? & _)])]; try done.
    split; [|split; [done|congruence]].
    destruct h as [|[] h0]; simpl in *; try done. by rewrite Hh.
Qed.

Lemma failed_set_changes_table_only_after_growth_witness :
  table_empty2 = fresh_table
  \/ ([true; false] = true :: false :: []
      /\ capacity fresh_table / 2 <= length fresh_table
      /\ capacity table_empty2 = 2 * capacity fresh_table).
Proof.
  apply (failed_set_changes_table_only_after_growth false 2 fresh_table
           "a" 7 [true; false] table_empty2 []).
  - wf_fresh.
  - discriminate.
  - reflexivity.
Defined.

(** ** X12, X13: a table follows its history *)

Lemma set_stored_holds ndebug fuel t k v h kk t' h' k2 v2 :
  wf t ->
  hashtable_set ndebug fuel t k v h = Done ((Some kk, t'), h') ->
  holds (entries t') k2 v2 <->
  (same_key k k2 /\ v2 = v) \/ (~ same_key k k2 /\ holds (entries t) k2 v2).
Proof.
  intros Hwf H.
  pose proof (set_success_not_null _ _ _ _ _ _ _ _ _ H) as Hv.
  destruct (set_sound _ _ _ _ _ _ _ _ _ Hwf Hv H) as (Hwf' & _ & _ & Hk & _).
  destruct (string_dec (c_str k) (c_str k2)) as [Hs|Hne].
  - split.
    + intros H2. left. split; [done|].
      eapply holds_functional; [apply Hwf'|done|]. by eapply holds_congr.
    + intros [[_ ->]|[Hn _]]; [by eapply holds_congr|done].
  - rewrite (set_frame _ _ _ _ _ _ _ _ _ k2 v2 Hwf Hv H Hne).
    split; [by right|]. by intros [[? _]|[_ ?]].
Qed.

Lemma last_set_present kvs k :
  Forall (fun kv : string * Z => snd kv <> NULL) kvs ->
  last_set kvs k <> NULL <->
  existsb (fun kv' : string * Z => String.eqb (c_str k) (c_str (fst kv')))
    kvs = true.
Proof.
  induction 1 as [|[k' v'] kvs Hv _ IH]; simpl; [done|].
  destruct (String.eqb (c_str k) (c_str k')); simpl; [done|apply IH].
Qed.

Lemma sets_from_inv t0 kvs t :
  wf t0 -> Forall slot_ok (entries t0) ->
  (forall k v, ~ holds (entries t0) k v) -> length t0 = 0 ->
  sets_from t0 kvs t ->
  wf t /\ Forall slot_ok (entries t)
  /\ Forall (fun kv : string * Z => snd kv <> NULL) kvs
  /\ (forall k v, holds (entries t) k v <-> last_set kvs k = v /\ v <> NULL)
  /\ length t = Z.of_nat (distinct_keys kvs).
Proof.
  intros Hwf0 Hok0 Hempty Hl0.
  induction 1 as [|ndebug fuel kvs t k v h kk t' h' _ IH H
                  |ndebug fuel kvs t k v h t' h' _ IH H].
  - split; [done|]. split; [done|]. split; [done|]. split; [|done].
    intros k v. split; [by intros ?%Hempty|by intros [<- ?]].
  - destruct IH as (Hwf & Hok & Hvs & Hh & Hl).
    pose proof (set_success_not_null _ _ _ _ _ _ _ _ _ H) as Hv.
    destruct (set_sound _ _ _ _ _ _ _ _ _ Hwf Hv H)
      as (Hwf' & _ & _ & _ & Hsame & Hnew).
    split; [done|]. split; [by eapply set_slot_ok|].
    split; [by constructor|]. split.
    + intros k2 v2. rewrite (set_stored_holds _ _ _ _ _ _ _ _ _ k2 v2 Hwf H).
      simpl. unfold same_key.
      destruct (String.eqb_spec (c_str k2) (c_str k)) as [Heq|Hne].
      * split; [intros [[_ ->]|[Hn _]]; [done|congruence]|].
        intros [<- _]. left. by split.
      * rewrite Hh. split; [intros [[? _]|[_ ?]]; [congruence|done]|].
        intros ?. right. split; [congruence|done].
    + simpl.
      destruct (existsb _ kvs) eqn:Hex.
      * rewrite Hsame, Hl; [lia|]. exists (last_set kvs k). apply Hh.
        split; [done|]. by apply last_set_present.
      * rewrite Hnew, Hl; [lia|]. intros v0 [Hlast Hv0]%Hh.
        apply (last_set_present kvs k) in Hvs. rewrite Hex in Hvs.
        subst v0. by apply Hvs in Hv0.
  - destruct IH as (Hwf & Hok & Hvs & Hh & Hl).
    destruct (decide (v = NULL)) as [->|Hv].
    + rewrite set_null in H. destruct ndebug; [|done].
      by injection H as <- _.
    + destruct (set_sound _ _ _ _ _ _ _ _ _ Hwf Hv H)
        as (Hwf' & _ & Hlen & Hh' & _).
      split; [done|]. split; [by eapply set_slot_ok|]. split; [done|].
      split; [|congruence]. intros k2 v2. by rewrite Hh'.
Qed.

Lemma sets_from_create h t0 h0 kvs t :
  hashtable_create h = Done (Some t0, h0) -> sets_from t0 kvs t ->
  wf t /\ Forall slot_ok (entries t)
  /\ Forall (fun kv : string * Z => snd kv <> NULL) kvs
  /\ (forall k v, holds (entries t) k v <-> last_set kvs k = v /\ v <> NULL)
  /\ length t = Z.of_nat (distinct_keys kvs).
Proof.
  intros Hc. pose proof (wf_create _ _ _ Hc) as Hwf0.
  apply create_fresh in Hc as ->.
  apply sets_from_inv; [done| | |done].
  - apply (slot_ok_replicate 1).
  - intros k v. apply (holds_replicate 1).
Qed.

(** X12. After [hashtable_create] and any calls of [hashtable_set] that
    returned, [hashtable_get] returns for every key the value of the
    latest successful call made with the same C string, and [NULL] when
    there was none; the calls that failed in between change nothing. *)
Theorem get_returns_latest_value h t0 h0 kvs t f k :
  hashtable_create h = Done (Some t0, h0) -> sets_from t0 kvs t ->
  capacity t <= Z.of_nat f ->
  hashtable_get f t k = Done (last_set kvs k).
Proof.
  intros Hc Hs Hf.
  destruct (sets_from_create _ _ _ _ _ Hc Hs) as (Hwf & _ & _ & Hh & _).
  assert (Datatypes.length (entries t) <= f)%nat as Hlen
    by (destruct Hwf as [[Hl _] _ _ _ _]; lia).
  destruct (decide (last_set kvs k = NULL)) as [Hn|Hn].
  - rewrite Hn. apply get_absent; [done| |done].
    intros v [Hv Hv']%Hh. congruence.
  - apply get_holds; [apply Hwf| |done]. by apply Hh.
Qed.

Lemma get_returns_latest_value_witness :
  hashtable_get 4 table_a9 "a" = Done (last_set [("a"%string, 9); ("a"%string, 7)] "a").
Proof.
  apply (get_returns_latest_value [] fresh_table []
           [("a"%string, 9); ("a"%string, 7)] table_a9 4 "a").
  - reflexivity.
  - apply (sets_stored fresh_table false 4 [("a"%string, 7)] table_a "a" 9 []
             "a"%string table_a9 []).
    + apply (sets_stored fresh_table false 2 [] fresh_table "a" 7 []
               "a"%string table_a []).
      * apply sets_none.
      * reflexivity.
    + reflexivity.
  - simpl. lia.
Defined.

(** X13. After [hashtable_create] and any calls of [hashtable_set] that
    returned, [hashtable_length] is the number of different C strings
    among the keys of the successful calls, whatever the growths and the
    failed calls in between. *)
Theorem length_counts_distinct_keys h t0 h0 kvs t :
  hashtable_create h = Done (Some t0, h0) -> sets_from t0 kvs t ->
  hashtable_length t = Z.of_nat (distinct_keys kvs).
Proof.
  intros Hc Hs. by destruct (sets_from_create _ _ _ _ _ Hc Hs) as (_ & _ & _ & _ & ?).
Qed.

Lemma length_counts_distinct_keys_witness :
  hashtable_length table_a9
  = Z.of_nat (distinct_keys [("a"%string, 9); ("a"%string, 7)]).
Proof.
  apply (length_counts_distinct_keys [] fresh_table []
           [("a"%string, 9); ("a"%string, 7)] table_a9).
  - reflexivity.
  - apply (sets_stored fresh_table false 4 [("a"%string, 7)] table_a "a" 9 []
             "a"%string table_a9 []).
    + apply (sets_stored fresh_table false 2 [] fresh_table "a" 7 []
               "a"%string table_a []).
      * apply sets_none.
      * reflexivity.
    + reflexivity.
Defined.

(** ** X14: [hashtable_destroy] *)

Lemma destroy_loop_spec t :
  array_ok (entries t) (capacity t) ->
  forall n m : nat,
    (n + m = Datatypes.length (entries t))%nat ->
    destroy_loop t n (Z.of_nat m)
    = Done ((fun e => FreeKey (key e)) <$> drop m (entries t)).
Proof.
  intros [Hlen Hc]. induction n as [|n IH]; intros m Hn.
  - simpl in Hn. subst m. by rewrite drop_all.
  - destruct (lookup_lt_is_Some_2 (entries t) m) as [e He]; [lia|].
    simpl. unfold entry_at. rewrite Nat2Z.id, He. simpl.
    rewrite u64_small by lia.
    replace (Z.of_nat m + 1) with (Z.of_nat (S m)) by lia.
    rewrite IH by lia. simpl. by rewrite (drop_S _ _ _ He).
Qed.

Lemma freed_keys_slots es tr :
  Some <$> freed_keys (((fun e => FreeKey (key e)) <$> es) ++ tr)
  = (fst <$> pairs es) ++ (Some <$> freed_keys tr).
Proof.
  induction es as [|e es IH]; [done|].
  rewrite fmap_cons, <- app_comm_cons. simpl pairs.
  destruct (key e) as [k|] eqn:Hk; simpl freed_keys; [|done].
  by rewrite !fmap_cons, IH.
Qed.

(** X14. On a table whose array has [capacity] slots, [hashtable_destroy]
    reads no slot outside the array and hands to [free] the key pointer of
    every slot in slot order, then the array, then the table: the keys
    freed are exactly the keys iteration shows, once each. *)
Theorem destroy_frees_every_key t :
  array_ok (entries t) (capacity t) ->
  exists tr,
    hashtable_destroy t = Done tr
    /\ tr = ((fun e => FreeKey (key e)) <$> entries t)
            ++ [FreeEntries; FreeTable]
    /\ Some <$> freed_keys tr = fst <$> pairs (entries t).
Proof.
  intros Ha. eexists. split; [|split; [done|]].
  - unfold hashtable_destroy.
    pose proof (destroy_loop_spec t Ha (Z.to_nat (capacity t)) O) as E.
    change (Z.of_nat 0) with 0 in E. rewrite E by (destruct Ha; lia).
    by rewrite drop_0.
  - rewrite freed_keys_slots. simpl. by rewrite app_nil_r.
Qed.

Lemma destroy_frees_every_key_witness :
  exists tr,
    hashtable_destroy table_abc = Done tr
    /\ tr = ((fun e => FreeKey (key e)) <$> entries table_abc)
            ++ [FreeEntries; FreeTable]
    /\ Some <$> freed_keys tr = fst <$> pairs (entries table_abc).
Proof.
  apply (destroy_frees_every_key table_abc).
  split; [reflexivity|simpl; lia].
Defined.

(** ** X15 - X17: the field tags of [main.c] *)

Lemma read_int_old cs x p :
  1 <= p <= Z.of_nat (Datatypes.length cs) ->
  read_int (cs ++ [x]) p = read_int cs p.
Proof.
  intros Hp. unfold read_int. destruct (Z.leb_spec p 0); [lia|].
  rewrite lookup_app_l by lia. done.
Qed.

Lemma read_int_new cs x :
  read_int (cs ++ [x]) (Z.of_nat (Datatypes.length cs) + 1) = Done x.
Proof.
  unfold read_int.
  destruct (Z.leb_spec (Z.of_nat (Datatypes.length cs) + 1) 0); [lia|].
  replace (Z.to_nat (Z.of_nat (Datatypes.length cs) + 1 - 1))
    with (Datatypes.length cs) by lia.
  by rewrite lookup_app_r, Nat.sub_diag.
Qed.

Lemma field_tag_cases ndebug fuel s k h n s' h' :
  field_tag ndebug fuel s k h = Done ((n, s'), h') ->
  (exists p,
     hashtable_get fuel (key_hashtable s) k = Done p /\ p <> NULL
     /\ read_int (cells s) p = Done n /\ s' = s /\ h' = h)
  \/ (hashtable_get fuel (key_hashtable s) k = Done NULL
      /\ head h <> Some false
      /\ n = to_int (counter s)
      /\ exists r t',
           hashtable_set ndebug fuel (key_hashtable s) k
             (Z.of_nat (Datatypes.length (cells s)) + 1) (tail h)
           = Done ((r, t'), h')
           /\ s' = {| key_hashtable := t';
                      counter := u64 (counter s + 1);
                      cells := cells s ++ [to_int (counter s)] |}).
Proof.
  unfold field_tag, bind, lift. intros H.
  destruct (hashtable_get fuel (key_hashtable s) k) as [p| | |];
    simpl in H; try done.
  destruct (Z.eqb_spec p NULL) as [Hz|Hp].
  - subst p. right. split; [done|].
    unfold alloc in H. destruct h as [|[] h0]; simpl in H; try done.
    + destruct (hashtable_set ndebug fuel _ k _ []) as [[[r t'] h1]| | |]
        eqn:E; simpl in H; try done.
      rewrite read_int_new in H. simpl in H. injection H as <- <- <-.
      split; [done|]. split; [done|]. by exists r, t'.
    + destruct (hashtable_set ndebug fuel _ k _ h0) as [[[r t'] h1]| | |]
        eqn:E; simpl in H; try done.
      rewrite read_int_new in H. simpl in H. injection H as <- <- <-.
      split; [done|]. split; [done|]. by exists r, t'.
  - left. exists p.
    destruct (read_int (cells s) p) as [m| | |]; simpl in H; try done.
    injection H as <- <- <-. done.
Qed.

Lemma field_tag_set_holds ndebug fuel t k v h r t' h' k2 p :
  wf t -> v <> NULL ->
  hashtable_set ndebug fuel t k v h = Done ((r, t'), h') ->
  holds (entries t') k2 p ->
  (same_key k k2 /\ p = v /\ r <> None) \/ holds (entries t) k2 p.
Proof.
  intros Hwf Hv H Hh. destruct r as [kk|].
  - apply (set_stored_holds _ _ _ _ _ _ _ _ _ k2 p Hwf H) in Hh
      as [[Hs ->]|[_ Hh]]; [left|by right]. done.
  - right. destruct (set_sound _ _ _ _ _ _ _ _ _ Hwf Hv H)
      as (_ & _ & _ & Hh' & _). by apply Hh'.
Qed.

Lemma tagged_ok s : tagged s -> registry_ok s.
Proof.
  induction 1 as [h t h' H|ndebug fuel s k h n s' h' _ IH H].
  - pose proof (create_fresh _ _ _ H) as ->.
    constructor; simpl; try done.
    + by apply (reach_create h fresh_table h').
    + intros k p Hh. by apply (holds_replicate 1) in Hh.
    + intros k1 k2 p Hh. by apply (holds_replicate 1) in Hh.
  - destruct (field_tag_cases _ _ _ _ _ _ _ _ H)
      as [(p & _ & _ & _ & -> & _)
         |(Hget & Hhead & -> & r & t' & E & ->)]; [done|].
    destruct IH as [Hr Hc Hcells Hvalid Hinj].
    pose proof (reachable_wf _ Hr) as Hwf.
    set (v := Z.of_nat (Datatypes.length (cells s)) + 1) in *.
    assert (v <> NULL) as Hv by (unfold v, NULL; lia).
    constructor; simpl.
    + by eapply reach_set.
    + rewrite length_app, Hc. simpl. unfold u64.
      rewrite Zplus_mod_idemp_l. f_equal. lia.
    + intros i m [Hi|[Hi Hm]]%lookup_app_Some; [by apply Hcells|].
      apply list_lookup_singleton_Some in Hm as [Hz <-].
      rewrite Hc. do 2 f_equal. lia.
    + intros k2 p Hh. rewrite length_app. simpl.
      destruct (field_tag_set_holds _ _ _ _ _ _ _ _ _ _ _ Hwf Hv E Hh)
        as [(_ & -> & _)|Hold]; [unfold v; lia|].
      apply Hvalid in Hold. lia.
    + intros k1 k2 p H1 H2.
      destruct (field_tag_set_holds _ _ _ _ _ _ _ _ _ _ _ Hwf Hv E H1)
        as [(Hs1 & -> & _)|Hold1];
        destruct (field_tag_set_holds _ _ _ _ _ _ _ _ _ _ _ Hwf Hv E H2)
        as [(Hs2 & Hp2 & _)|Hold2].
      * eapply same_key_trans; [by apply same_key_sym|done].
      * apply Hvalid in Hold2. unfold v in Hold2. lia.
      * apply Hvalid in Hold1. unfold v in Hp2. lia.
      * by eapply Hinj.
Qed.

Lemma get_null_absent fuel t k p :
  wf t -> Forall slot_ok (entries t) ->
  hashtable_get fuel t k = Done NULL -> ~ holds (entries t) k p.
Proof.
  intros Hwf Hok Hget Hh.
  pose proof (holds_not_null _ _ _ Hok Hh) as Hp.
  unfold hashtable_get in Hget. rewrite get_loop_probe in Hget.
  fold (home (capacity t) k) in Hget.
  destruct (chain_hit _ _ _ _ (wf_chain _ Hwf) Hh) as (j & e & L & Hj & He).
  destruct (set_entry_loop fuel _ _ k _) as [r0| | |] eqn:L0;
    simpl in Hget; try done.
  rewrite (loop_fuel_irrelevant _ _ _ _ _ _ _ _ L0 L) in Hget.
  simpl in Hget. unfold entry_at in Hget. rewrite Nat2Z.id, Hj in Hget.
  simpl in Hget. injection Hget as Hget. congruence.
Qed.

Lemma registered_read s k p :
  registry_ok s -> holds (entries (key_hashtable s)) k p ->
  exists n, read_int (cells s) p = Done n /\ n = to_int (u64 p).
Proof.
  intros [Hr Hc Hcells Hvalid Hinj] Hh.
  pose proof (Hvalid _ _ Hh) as Hp.
  destruct (lookup_lt_is_Some_2 (cells s) (Z.to_nat (p - 1))) as [n Hn];
    [lia|].
  exists n. split.
  - unfold read_int. destruct (Z.leb_spec p 0); [lia|]. by rewrite Hn.
  - rewrite (Hcells _ _ Hn). do 2 f_equal. lia.
Qed.

Lemma field_tag_registered ndebug fuel s k h p n :
  registry_ok s -> holds (entries (key_hashtable s)) k p ->
  read_int (cells s) p = Done n ->
  capacity (key_hashtable s) <= Z.of_nat fuel ->
  field_tag ndebug fuel s k h = Done ((n, s), h).
Proof.
  intros Hok Hh Hread Hf.
  pose proof (reachable_wf _ (reg_table _ Hok)) as Hwf.
  pose proof (reg_valid _ Hok _ _ Hh) as Hp.
  unfold field_tag, bind, lift.
  rewrite (get_holds fuel _ k p); [|apply Hwf|done|].
  - simpl. destruct (Z.eqb_spec p NULL) as [->|_]; [unfold NULL in Hp; lia|].
    by rewrite Hread.
  - destruct Hwf as [[Hl _] _ _ _ _]. lia.
Qed.

Lemma field_tag_result ndebug fuel s k h n s1 h1 p :
  registry_ok s ->
  field_tag ndebug fuel s k h = Done ((n, s1), h1) ->
  holds (entries (key_hashtable s1)) k p ->
  read_int (cells s1) p = Done n.
Proof.
  intros Hok H Hh. pose proof (reg_table _ Hok) as Hr.
  pose proof (reachable_wf _ Hr) as Hwf.
  destruct (field_tag_cases _ _ _ _ _ _ _ _ H)
    as [(p0 & Hget & Hp0 & Hread & -> & _)
       |(Hget & Hhead & -> & r & t' & E & ->)].
  - apply get_Done_holds in Hget; [|done].
    by rewrite (holds_functional _ _ _ _ _ (wf_chain _ Hwf) Hh Hget).
  - simpl in *.
    set (v := Z.of_nat (Datatypes.length (cells s)) + 1) in *.
    assert (v <> NULL) as Hv by (unfold v, NULL; lia).
    destruct (field_tag_set_holds _ _ _ _ _ _ _ _ _ _ _ Hwf Hv E Hh)
      as [(_ & -> & _)|Hold]; [apply read_int_new|].
    by destruct (get_null_absent _ _ _ _ Hwf (reachable_slot_ok _ Hr)
                   Hget Hold).
Qed.

Lemma field_tag_keeps ndebug fuel s k0 h n0 s' h' k p :
  registry_ok s -> holds (entries (key_hashtable s)) k p ->
  field_tag ndebug fuel s k0 h = Done ((n0, s'), h') ->
  holds (entries (key_hashtable s')) k p
  /\ read_int (cells s') p = read_int (cells s) p.
Proof.
  intros Hok Hh H. pose proof (reg_table _ Hok) as Hr.
  pose proof (reachable_wf _ Hr) as Hwf.
  destruct (field_tag_cases _ _ _ _ _ _ _ _ H)
    as [(p0 & _ & _ & _ & -> & _)
       |(Hget & Hhead & -> & r & t' & E & ->)]; [done|].
  simpl. split; [|by apply read_int_old, (reg_valid _ Hok k)].
  set (v := Z.of_nat (Datatypes.length (cells s)) + 1) in *.
  assert (v <> NULL) as Hv by (unfold v, NULL; lia).
  assert (~ same_key k0 k) as Hne.
  { intros Hs. apply (holds_congr _ _ k0) in Hh; [|by apply same_key_sym].
    by destruct (get_null_absent _ _ _ _ Hwf (reachable_slot_ok _ Hr)
                   Hget Hh). }
  destruct r as [kk|].
  - apply (set_stored_holds _ _ _ _ _ _ _ _ _ k p Hwf E). by right.
  - destruct (set_sound _ _ _ _ _ _ _ _ _ Hwf Hv E) as (_ & _ & _ & Hh' & _).
    by apply Hh'.
Qed.

Lemma tag_steps_ok s s' : tagged s -> tag_steps s s' -> tagged s'.
Proof.
  intros Ht Hs. induction Hs as [s|ndebug fuel s k h n s1 h1 s2 H _ IH];
    [done|].
  apply IH. by eapply tagged_field.
Qed.

Lemma tag_steps_keep s s' k p :
  tagged s -> tag_steps s s' ->
  holds (entries (key_hashtable s)) k p ->
  holds (entries (key_hashtable s')) k p
  /\ read_int (cells s') p = read_int (cells s) p.
Proof.
  intros Ht Hs. induction Hs as [s|ndebug fuel s k0 h n s1 h1 s2 H _ IH];
    intros Hh; [done|].
  destruct (field_tag_keeps _ _ _ _ _ _ _ _ _ _ (tagged_ok _ Ht) Hh H)
    as [Hh1 Hr1].
  destruct (IH (tagged_field _ _ _ _ _ _ _ _ Ht H) Hh1) as [Hh2 Hr2].
  split; [done|congruence].
Qed.

Local Ltac tagged_0 := by apply (tagged_start [] fresh_table []).
Local Ltac tagged_a :=
  apply (tagged_field false 8 registry_0 "a" [] 1 registry_a []);
  [tagged_0 | reflexivity].
Local Ltac tagged_ab :=
  apply (tagged_field false 8 registry_a "b" [] 2 registry_ab []);
  [tagged_a | reflexivity].

(** X15. A field name keeps its tag. Once [field_tag] has returned the
    tag [n] for a name and the table holds the name, every later call for
    that name, after any number of other fields, returns [n] again, changes
    neither the table, the counter nor the cells, and makes no memory
    request, whatever the allocator would answer. *)
Theorem field_name_keeps_its_tag
    ndebug fuel s k h n s1 h1 f1 p s2 ndebug2 fuel2 h2 :
  tagged s ->
  field_tag ndebug fuel s k h = Done ((n, s1), h1) ->
  hashtable_get f1 (key_hashtable s1) k = Done p -> p <> NULL ->
  tag_steps s1 s2 ->
  capacity (key_hashtable s2) <= Z.of_nat fuel2 ->
  field_tag ndebug2 fuel2 s2 k h2 = Done ((n, s2), h2).
Proof.
  intros Ht H Hget Hp Hsteps Hf2.
  pose proof (tagged_field _ _ _ _ _ _ _ _ Ht H) as Ht1.
  pose proof (get_Done_holds _ _ _ _ Hget Hp) as Hh1.
  pose proof (field_tag_result _ _ _ _ _ _ _ _ _ (tagged_ok _ Ht) H Hh1)
    as Hread.
  destruct (tag_steps_keep _ _ _ _ Ht1 Hsteps Hh1) as [Hh2 Hr2].
  apply (field_tag_registered _ _ _ _ _ p);
    [by apply tagged_ok, (tag_steps_ok s1)|done|congruence|done].
Qed.

Lemma field_name_keeps_its_tag_witness :
  field_tag true 4 registry_ab "a" [false] = Done ((1, registry_ab), [false]).
Proof.
  apply (field_name_keeps_its_tag false 8 registry_0 "a" [] 1 registry_a []
           2 1 registry_ab true 4 [false]).
  - tagged_0.
  - reflexivity.
  - reflexivity.
  - discriminate.
  - apply (tag_steps_field false 8 registry_a "b" [] 2 registry_ab []
             registry_ab); [reflexivity|apply tag_steps_refl].
  - simpl. lia.
Defined.

(** X16. Different field names have different tags: in a state of [main]
    with fewer than [2 ^ 31] cells made, two names the table holds whose C
    strings differ get different tags from [field_tag]. *)
Theorem field_names_have_distinct_tags ndebug fuel f s k1 k2 p1 p2 h :
  tagged s ->
  Z.of_nat (Datatypes.length (cells s)) < 2 ^ 31 ->
  hashtable_get f (key_hashtable s) k1 = Done p1 -> p1 <> NULL ->
  hashtable_get f (key_hashtable s) k2 = Done p2 -> p2 <> NULL ->
  ~ same_key k1 k2 ->
  capacity (key_hashtable s) <= Z.of_nat fuel ->
  exists n1 n2,
    field_tag ndebug fuel s k1 h = Done ((n1, s), h)
    /\ field_tag ndebug fuel s k2 h = Done ((n2, s), h)
    /\ n1 <> n2.
Proof.
  intros Ht Hsmall Hg1 Hp1 Hg2 Hp2 Hne Hf.
  pose proof (tagged_ok _ Ht) as Hok.
  apply get_Done_holds in Hg1; [|done]. apply get_Done_holds in Hg2; [|done].
  destruct (registered_read _ _ _ Hok Hg1) as (n1 & Hr1 & Hn1).
  destruct (registered_read _ _ _ Hok Hg2) as (n2 & Hr2 & Hn2).
  exists n1, n2.
  split; [by apply (field_tag_registered _ _ _ _ _ p1)|].
  split; [by apply (field_tag_registered _ _ _ _ _ p2)|].
  pose proof (reg_valid _ Hok _ _ Hg1) as Hv1.
  pose proof (reg_valid _ Hok _ _ Hg2) as Hv2.
  assert (forall p, 1 <= p < 2 ^ 31 -> to_int (u64 p) = p) as Hid.
  { intros p Hp. rewrite u64_small by lia. unfold to_int.
    rewrite Z.mod_small by lia. lia. }
  rewrite Hn1, Hn2, !Hid by lia.
  intros ->. apply Hne. by eapply (reg_inj _ Hok).
Qed.

Lemma field_names_have_distinct_tags_witness :
  exists n1 n2,
    field_tag false 4 registry_ab "a" [] = Done ((n1, registry_ab), [])
    /\ field_tag false 4 registry_ab "b" [] = Done ((n2, registry_ab), [])
    /\ n1 <> n2.
Proof.
  apply (field_names_have_distinct_tags false 4 4 registry_ab "a" "b" 1 2 []).
  - tagged_ab.
  - simpl. lia.
  - reflexivity.
  - discriminate.
  - reflexivity.
  - discriminate.
  - discriminate.
  - simpl. lia.
Defined.

(** X17. Tags follow the counter. In a state of [main], [field_tag] for a
    name the table does not hold returns the counter converted to [int]
    and adds one to the counter, whether or not [hashtable_set] could store
    the name; for a name the table holds it leaves the state as it is. *)
Theorem new_field_gets_the_counter ndebug fuel f s k h n s' h' :
  tagged s ->
  field_tag ndebug fuel s k h = Done ((n, s'), h') ->
  capacity (key_hashtable s) <= Z.of_nat f ->
  exists p,
    hashtable_get f (key_hashtable s) k = Done p
    /\ if p =? NULL
       then n = to_int (counter s) /\ counter s' = u64 (counter s + 1)
            /\ cells s' = cells s ++ [n]
       else s' = s /\ h' = h.
Proof.
  intros Ht H Hf. pose proof (tagged_ok _ Ht) as Hok.
  pose proof (reg_table _ Hok) as Hr. pose proof (reachable_wf _ Hr) as Hwf.
  assert (Datatypes.length (entries (key_hashtable s)) <= f)%nat as Hlen
    by (destruct Hwf as [[Hl _] _ _ _ _]; lia).
  destruct (field_tag_cases _ _ _ _ _ _ _ _ H)
    as [(p0 & Hget & Hp0 & Hread & -> & ->)
       |(Hget & Hhead & -> & r & t' & E & ->)].
  - exists p0. apply get_Done_holds in Hget; [|done].
    rewrite (get_holds f _ k p0); [|apply Hwf|done..].
    split; [done|]. by destruct (Z.eqb_spec p0 NULL).
  - exists NULL. split; [|done].
    apply get_absent; [done| |done].
    intros v.
    apply (get_null_absent fuel); [done|by apply reachable_slot_ok|done].
Qed.

Lemma new_field_gets_the_counter_witness :
  exists p,
    hashtable_get 2 (key_hashtable registry_a) "b" = Done p
    /\ if p =? NULL
       then 2 = to_int (counter registry_a)
            /\ counter registry_ab = u64 (counter registry_a + 1)
            /\ cells registry_ab = cells registry_a ++ [2]
       else registry_ab = registry_a /\ [] = [] :> heap.
Proof.
  apply (new_field_gets_the_counter false 8 2 registry_a "b" [] 2
           registry_ab []).
  - tagged_a.
  - reflexivity.
  - simpl. lia.
Defined.

(** ** X18, X19: instances *)

Lemma hashtable_set_returns_witness :
  exists r t' h',
    hashtable_set false 4 table_a "b" 9 [false] = Done ((r, t'), h').
Proof.
  apply (hashtable_set_returns false 4 table_a "b" 9 [false]).
  - reach_table_a.
  - discriminate.
  - simpl. lia.
Defined.

Lemma home_mod_witness :
  home (capacity table_abc) "a" = hash_key "a" mod capacity table_abc.
Proof.
  apply (home_mod table_abc "a"). wf_table_abc.
Defined.

(** ** C6: overwriting *)



